(** * The todo application: state orchestration of [App] and [TodoItem]

    A shallow embedding of the React component [App] (the collection
    state, the filters and the add / update / toggle-all / delete /
    clear-completed flows), of the handlers of [TodoItem] that call it,
    and of the error auto-dismiss effect, followed by the properties the
    specification states about them. *)

From Stdlib Require Import Ascii String.
From stdpp Require Import base list numbers strings.

Local Open Scope Z_scope.

(** ** JavaScript strings and [String.prototype.trim] *)

(** A JavaScript string is a sequence of UTF-16 code units. *)
Definition jsstring : Type := list N.

(** ECMAScript [WhiteSpace] and [LineTerminator] code points, the ones
    [trim] strips: TAB, LF, VT, FF, CR, SP, NBSP, the [Zs] category,
    LS, PS and ZWNBSP. *)
Definition whiteSpace : list N :=
  [9; 10; 11; 12; 13; 32; 160; 5760;
   8192; 8193; 8194; 8195; 8196; 8197; 8198; 8199; 8200; 8201; 8202;
   8232; 8233; 8239; 8287; 12288; 65279]%N.

Definition isWhiteSpace (c : N) : bool := bool_decide (c ∈ whiteSpace).

Fixpoint trimStart (s : jsstring) : jsstring :=
  match s with
  | c :: s' => if isWhiteSpace c then trimStart s' else s
  | [] => []
  end.

Definition trimEnd (s : jsstring) : jsstring := reverse (trimStart (reverse s)).

Definition trim (s : jsstring) : jsstring := trimEnd (trimStart s).

(** Truthiness of a string: [!s] holds of the empty string only. *)
Definition truthy (s : jsstring) : bool :=
  match s with [] => false | _ :: _ => true end.

(** The code units of an ASCII literal. *)
Fixpoint js (s : string) : jsstring :=
  match s with
  | EmptyString => []
  | String a s' => N_of_ascii a :: js s'
  end.

(** ** Data model *)

(** [types/Todo]: [loading] is an optional field, [None] is [undefined]. *)
Record Todo : Type := mkTodo {
  id : Z;
  userId : Z;
  title : jsstring;
  completed : bool;
  loading : option bool;
}.

(** [{ ...todo, loading: v }] *)
Definition with_loading (v : bool) (todo : Todo) : Todo :=
  {| id := id todo; userId := userId todo; title := title todo;
     completed := completed todo; loading := Some v |}.

(** [{ ...todo, completed: c, loading: v }] *)
Definition with_completed_loading (c v : bool) (todo : Todo) : Todo :=
  {| id := id todo; userId := userId todo; title := title todo;
     completed := c; loading := Some v |}.

(** [Partial<Todo>]: every field optional. *)
Record PartialTodo : Type := mkPartial {
  p_id : option Z;
  p_userId : option Z;
  p_title : option jsstring;
  p_completed : option bool;
  p_loading : option bool;
}.

(** [{ completed: v }] and [{ title: t }] *)
Definition data_completed (v : bool) : PartialTodo :=
  {| p_id := None; p_userId := None; p_title := None;
     p_completed := Some v; p_loading := None |}.

Definition data_title (t : jsstring) : PartialTodo :=
  {| p_id := None; p_userId := None; p_title := Some t;
     p_completed := None; p_loading := None |}.

(** The argument of [postTodo]: [{ userId, title, completed }]. *)
Record NewTodo : Type := mkNewTodo {
  n_userId : Z;
  n_title : jsstring;
  n_completed : bool;
}.

(** [{ id: 0, ...newTodo }] *)
Definition placeholder (n : NewTodo) : Todo :=
  {| id := 0; userId := n_userId n; title := n_title n;
     completed := n_completed n; loading := None |}.

Inductive TodoFilterOptions : Type := All | Active | Completed.

(** The state of [App]: its four [useState] cells. *)
Record AppState : Type := mkApp {
  todos : list Todo;
  tempTodo : option Todo;
  error : string;
  todoFilterValue : TodoFilterOptions;
}.

(** ** Filters (pure) *)

Definition filterTodos (todosForFilter : list Todo)
    (statusFilterValue : TodoFilterOptions) : list Todo :=
  List.filter (λ todo,
    match statusFilterValue with
    | Active => negb (completed todo)
    | Completed => completed todo
    | All => true
    end) todosForFilter.

Definition filteredTodos (s : AppState) : list Todo :=
  filterTodos (todos s) (todoFilterValue s).

Definition uncompletedTodos (ts : list Todo) : list Todo :=
  List.filter (λ todo, negb (completed todo)) ts.

Definition completedTodos (ts : list Todo) : list Todo :=
  List.filter (λ todo, completed todo) ts.

(** [!!uncompletedTodos.length] *)
Definition toggleValueOf (ts : list Todo) : bool :=
  negb (length (uncompletedTodos ts) =? 0)%nat.

(** The steps of toggle-all on the collection. *)

(** [todo.completed !== toggleValue ? { ...todo, loading: true } : todo] *)
Definition markLoading (toggleValue : bool) (todo : Todo) : Todo :=
  if xorb (completed todo) toggleValue then with_loading true todo else todo.

(** [{ ...todo, completed: todo.completed !== toggleValue ? toggleValue
      : todo.completed, loading: false }] *)
Definition reconcile (toggleValue : bool) (todo : Todo) : Todo :=
  with_completed_loading
    (if xorb (completed todo) toggleValue then toggleValue else completed todo)
    false todo.

(** [{ ...todo, loading: false }] *)
Definition clearLoading (todo : Todo) : Todo := with_loading false todo.

(** [todo.id === response.id ? response : todo] *)
Definition replaceById (response todo : Todo) : Todo :=
  if id todo =? id response then response else todo.

(** What the footer and the header receive that is derived from the
    collection. *)
Record Counts : Type := mkCounts {
  uncompletedTodosCount : nat;
  completedTodosCount : nat;
  areAllTodosCompleted : bool;
  isTodos : bool;
}.

Definition counts (s : AppState) : Counts :=
  {| uncompletedTodosCount := length (uncompletedTodos (todos s));
     completedTodosCount := length (completedTodos (todos s));
     areAllTodosCompleted := (length (uncompletedTodos (todos s)) =? 0)%nat;
     isTodos := negb (length (todos s) =? 0)%nat |}.

(** ** The remote service *)

(** How a promise settles: the two statuses of [Promise.allSettled]. *)
Inductive Settled (E A : Type) : Type :=
| Fulfilled (value : A)
| Rejected (reason : E).
Arguments Fulfilled {E A} value.
Arguments Rejected {E A} reason.

Definition isRejected {E A} (result : Settled E A) : bool :=
  match result with Rejected _ => true | Fulfilled _ => false end.

(** The requests the application sends, as recorded in the log. *)
Inductive Request : Type :=
| GetTodos
| PostTodo (newTodo : NewTodo)
| PatchTodo (todoId : Z) (data : PartialTodo)
| DeleteTodo (todoId : Z).

(** [api/todos]: the four operations answer from a service state [Srv]
    that the application does not see, by a value or by a rejection of
    type [Err]. Requests sent together are answered in an order the
    application does not control: [arrival] is that order, any
    rearrangement of the requests. *)
Class TodoApi (Srv Err : Type) : Type := {
  USER_ID : Z;
  getTodos : Srv → Settled Err (list Todo) * Srv;
  postTodo : NewTodo → Srv → Settled Err Todo * Srv;
  patchTodo : Z → PartialTodo → Srv → Settled Err Todo * Srv;
  deleteTodo : Z → Srv → Settled Err unit * Srv;
  arrival : ∀ A : Type, list A → list A;
  arrival_perm : ∀ (A : Type) (l : list A), arrival A l ≡ₚ l;
}.

(** The application state, the service and the requests sent so far. *)
Record World (Srv : Type) : Type := mkWorld {
  app : AppState;
  srv : Srv;
  log : list Request;
}.
Arguments mkWorld {Srv} app srv log.
Arguments app {Srv} w.
Arguments srv {Srv} w.
Arguments log {Srv} w.

(** Flows are state transformers over the world. *)
Definition M (Srv A : Type) : Type := World Srv → A * World Srv.

Global Instance M_ret {Srv} : MRet (M Srv) := λ A a w, (a, w).
Global Instance M_bind {Srv} : MBind (M Srv) :=
  λ A B f m w, let '(a, w') := m w in f a w'.

Section App.
Context {Srv Err : Type} {api : TodoApi Srv Err}.

Local Abbreviation M := (M Srv).
Local Abbreviation Promise := (Settled Err).

(** *** State setters and readers *)

Definition setTodos (f : list Todo → list Todo) : M unit := λ w,
  (tt, mkWorld (mkApp (f (todos (app w))) (tempTodo (app w)) (error (app w))
                      (todoFilterValue (app w)))
               (srv w) (log w)).

Definition setTempTodo (t : option Todo) : M unit := λ w,
  (tt, mkWorld (mkApp (todos (app w)) t (error (app w))
                      (todoFilterValue (app w)))
               (srv w) (log w)).

Definition setError (msg : string) : M unit := λ w,
  (tt, mkWorld (mkApp (todos (app w)) (tempTodo (app w)) msg
                      (todoFilterValue (app w)))
               (srv w) (log w)).

Definition setTodoFilterValue (f : TodoFilterOptions) : M unit := λ w,
  (tt, mkWorld (mkApp (todos (app w)) (tempTodo (app w)) (error (app w)) f)
               (srv w) (log w)).

(** The collection the callback closed over at the last render. *)
Definition readTodos : M (list Todo) := λ w, (todos (app w), w).

(** *** Requests: each is logged and answered by the service *)

Definition request {A} (r : Request) (f : Srv → Promise A * Srv)
    : M (Promise A) := λ w,
  let '(result, s) := f (srv w) in
  (result, mkWorld (app w) s (log w ++ [r])).

(** A computation that only talks to the service: it does not look at
    the application state and leaves it as it is. *)
Definition service_only {A} (m : M A) : Prop :=
  ∀ w a, m (mkWorld a (srv w) (log w))
         = ((m w).1, mkWorld a (srv (m w).2) (log (m w).2)).

(** A computation on the application state alone, as the handlers that
    run when an answer arrives. *)
Definition app_only {A} (m : M A) : Prop :=
  ∀ w s lg, m (mkWorld (app w) s lg)
            = ((m w).1, mkWorld (app (m w).2) s lg).

(** *** Fetch todos *)

Definition loadTodos : M unit :=
  result ← request GetTodos getTodos;
  match result with
  | Fulfilled response => setTodos (λ _, response)
  | Rejected _ => setError "Unable to load todos"
  end.

(** *** Add todo *)

(** [{ userId: USER_ID, title: newTodoTitle, completed: false }] *)
Definition newTodoOf (newTodoTitle : jsstring) : NewTodo :=
  {| n_userId := USER_ID; n_title := newTodoTitle; n_completed := false |}.

Definition addTodo (title : jsstring) : M (Promise unit) :=
  let newTodoTitle := trim title in
  if negb (truthy newTodoTitle) then
    setError "Title should not be empty";;
    mret (Fulfilled tt)
  else
    let newTodo := newTodoOf newTodoTitle in
    setTempTodo (Some (placeholder newTodo));;
    result ← request (PostTodo newTodo) (postTodo newTodo);
    outcome ← match result with
              | Fulfilled response =>
                  setTodos (λ prevTodos, prevTodos ++ [response]);;
                  setError "";;
                  mret (Fulfilled tt)
              | Rejected err =>
                  setError "Unable to add a todo";;
                  mret (Rejected err)
              end;
    setTempTodo None;;
    mret outcome.

(** *** Update todo *)

(** The [then] and [catch] handlers of [updateTodo], run when the
    answer to the request arrives. *)
Definition updateTodo_settled (result : Promise Todo) : M (Promise unit) :=
  match result with
  | Fulfilled response =>
      setTodos (λ prevTodos, replaceById response <$> prevTodos);;
      mret (Fulfilled tt)
  | Rejected err =>
      setError "Unable to update a todo";;
      mret (Rejected err)
  end.

Definition updateTodo (todoId : Z) (data : PartialTodo) : M (Promise unit) :=
  result ← request (PatchTodo todoId data) (patchTodo todoId data);
  updateTodo_settled result.

(** *** Toggle all todos *)

(** [Promise.allSettled] never rejects and [patchTodo] answers by a
    promise, so nothing in the [try] block throws: the [catch] handler
    of the source is kept as [toggleAll_catch] and is not on any path
    of [toggleAllTodos]. The requests go out in the order of the
    collection; their handlers run in the order of [arrival], and the
    flow only counts the rejected results. *)
Definition toggleAll_catch : M unit :=
  setError "Error updating todos";;
  setTodos (λ prevTodos, clearLoading <$> prevTodos).

(** The requests of [todosToToggle.map(todo => updateTodo(todo.id,
    { completed: toggleValue }))], with the answer to each. *)
Definition sendUpdates (toggleValue : bool) (todosToToggle : list Todo)
    : M (list (Promise Todo)) :=
  mapM (λ todo,
    request (PatchTodo (id todo) (data_completed toggleValue))
            (patchTodo (id todo) (data_completed toggleValue)))
  todosToToggle.

Definition toggleAllTodos : M (Promise unit) :=
  todos ← readTodos;
  if (length todos =? 0)%nat then mret (Fulfilled tt)
  else
    let toggleValue := toggleValueOf todos in
    let updatedTodos := markLoading toggleValue <$> todos in
    setTodos (λ _, updatedTodos);;
    let todosToToggle :=
      List.filter (λ todo, xorb (completed todo) toggleValue) todos in
    answers ← sendUpdates toggleValue todosToToggle;
    results ← mapM updateTodo_settled (arrival _ answers);
    let rejectedTodos := List.filter isRejected results in
    (if negb (length rejectedTodos =? 0)%nat
     then setError "Some todos could not be updated"
     else mret tt);;
    setTodos (λ prevTodos, reconcile toggleValue <$> prevTodos);;
    mret (Fulfilled tt).

(** *** Remove todo *)

Definition removeTodo_settled (todoId : Z) (result : Promise unit)
    : M (Promise unit) :=
  match result with
  | Fulfilled _ =>
      setTodos (λ prevTodos,
        List.filter (λ todo, negb (id todo =? todoId)) prevTodos);;
      setError "";;
      mret (Fulfilled tt)
  | Rejected err =>
      setError "Unable to delete a todo";;
      mret (Rejected err)
  end.

Definition removeTodo (todoId : Z) : M (Promise unit) :=
  result ← request (DeleteTodo todoId) (deleteTodo todoId);
  removeTodo_settled todoId result.

(** *** Remove all completed todos *)

(** The requests of [completedTodos.map(todo => removeTodo(todo.id))],
    each with the identifier its handlers close over and its answer;
    the handlers run in the order of [arrival]. *)
Definition sendDeletes (completedTodos : list Todo)
    : M (list (Z * Promise unit)) :=
  mapM (λ todo,
    result ← request (DeleteTodo (id todo)) (deleteTodo (id todo));
    mret (id todo, result))
  completedTodos.

Definition removeCompletedTodos : M (Promise unit) :=
  todos ← readTodos;
  let completedTodos := completedTodos todos in
  if (length completedTodos =? 0)%nat then mret (Fulfilled tt)
  else
    answers ← sendDeletes completedTodos;
    results ← mapM (λ answer, removeTodo_settled answer.1 answer.2)
                (arrival _ answers);
    let rejectedTodos := List.filter isRejected results in
    (if negb (length rejectedTodos =? 0)%nat
     then setError "Some todos could not be deleted"
     else mret tt);;
    mret (Fulfilled tt).

End App.

(** ** [TodoItem]: the handlers that call the flows *)

(** [isLoading={todo.loading}] in [TodoList], with the default [false]
    of the prop for [undefined]. *)
Definition isLoadingProp (todo : Todo) : bool := default false (loading todo).

Module TodoItem.

(** The [useState] cells of one item. *)
Record State : Type := mkState {
  editable : bool;
  visible : bool;
  loading : bool;
  editableTodoTitleValue : jsstring;
}.

Definition initial (todo : Todo) (isLoading : bool) : State :=
  {| editable := false; visible := false; loading := isLoading;
     editableTodoTitleValue := title todo |}.

Definition setEditable (v : bool) (st : State) : State :=
  {| editable := v; visible := visible st; loading := loading st;
     editableTodoTitleValue := editableTodoTitleValue st |}.

Definition setLoading (v : bool) (st : State) : State :=
  {| editable := editable st; visible := visible st; loading := v;
     editableTodoTitleValue := editableTodoTitleValue st |}.

Definition setEditableTodoTitleValue (t : jsstring) (st : State) : State :=
  {| editable := editable st; visible := visible st; loading := loading st;
     editableTodoTitleValue := t |}.

Section Handlers.
Context {Srv Err : Type}.
Variable todo : Todo.
Variable onDelete : Z → M Srv (Settled Err unit).
Variable onUpdate : Z → PartialTodo → M Srv (Settled Err unit).

(** [setLoading(true); onDelete(id).finally(() => setLoading(false))] *)
Definition handleDeleteTodoButtonClick (st : State) : M Srv State :=
  let st := setLoading true st in
  _ ← onDelete (id todo);
  mret (setLoading false st).

(** The calls to [preventDefault] and to [focus] act on the document
    only and leave the four cells alone. *)
Definition handleEditTodoFormSubmit (st : State) : M Srv State :=
  let trimmedTitle := trim (editableTodoTitleValue st) in
  let st := setEditableTodoTitleValue trimmedTitle st in
  if bool_decide (trimmedTitle = title todo) then
    mret (setEditable false st)
  else if negb (truthy trimmedTitle) then
    handleDeleteTodoButtonClick st
  else
    let st := setLoading true st in
    outcome ← onUpdate (id todo) (data_title trimmedTitle);
    let st := match outcome with
              | Fulfilled _ => setEditable false st
              | Rejected _ => setEditable true st
              end in
    mret (setLoading false st).

(** [setLoading(true); onUpdate(id, { completed: !completed })
      .finally(() => setLoading(false))] *)
Definition handleTodoStatusChange (st : State) : M Srv State :=
  let st := setLoading true st in
  _ ← onUpdate (id todo) (data_completed (negb (completed todo)));
  mret (setLoading false st).

(** [setEditableTodoTitleValue(event.target.value)] *)
Definition handleEditTodoInputChange (value : jsstring) (st : State) : State :=
  setEditableTodoTitleValue value st.

(** [if (event.key === 'Escape') { setEditable(false);
      setEditableTodoTitleValue(title); }] *)
Definition handleKeyDown (key : string) (st : State) : State :=
  if String.eqb key "Escape"
  then setEditableTodoTitleValue (title todo) (setEditable false st)
  else st.

End Handlers.

End TodoItem.

(** ** [TodoList]: what is rendered *)

Module TodoList.

(** One rendered [TodoItem]: its React key, its todo and its
    [isLoading] prop. *)
Record Item : Type := mkItem {
  key : Z;
  todo : Todo;
  isLoading : bool;
}.

(** [todos.map(todo => <TodoItem key={todo.id} todo={todo}
      isLoading={todo.loading} />)] followed by
    [tempTodo && <TodoItem key={0} todo={tempTodo} isLoading />]. *)
Definition render (todos : list Todo) (tempTodo : option Todo) : list Item :=
  ((λ todo, mkItem (id todo) todo (isLoadingProp todo)) <$> todos)
  ++ match tempTodo with
     | Some temp => [mkItem 0 temp true]
     | None => []
     end.

End TodoList.

(** [(!!todos.length || tempTodo) && <TodoList todos={filteredTodos}
      tempTodo={tempTodo} />]: the items [App] shows. *)
Definition showList (s : AppState) : bool :=
  negb (length (todos s) =? 0)%nat || bool_decide (is_Some (tempTodo s)).

(** The whole render of [App] is [USER_ID ? <div>...</div> :
    <UserWarning />], and a number is truthy when it is not 0: without
    a user identifier no item is rendered. *)
Definition renderedItems {Srv Err : Type} {api : TodoApi Srv Err}
    (s : AppState) : list TodoList.Item :=
  if USER_ID =? 0 then []
  else if showList s then TodoList.render (filteredTodos s) (tempTodo s)
  else [].

(** ** The error auto-dismiss effect *)

Module ErrorTimer.

(** The [error] cell with what the effect acts on: the clock (in
    milliseconds) and the pending timeouts of the browser, each a handle
    with the time it is due, and the cleanup function that the last run
    of the effect returned ([Some timer] is [() => clearTimeout(timer)],
    [None] is [undefined]). *)
Record State : Type := mkState {
  error : string;
  now : N;
  timers : list (nat * N);
  nextTimer : nat;
  cleanup : option nat;
}.

Definition initial : State :=
  {| error := ""; now := 0; timers := []; nextTimer := 0; cleanup := None |}.

Definition setTimeout (delay : N) (s : State) : nat * State :=
  (nextTimer s,
   {| error := error s; now := now s;
      timers := timers s ++ [(nextTimer s, (now s + delay)%N)];
      nextTimer := S (nextTimer s); cleanup := cleanup s |}).

Definition clearTimeout (timer : nat) (s : State) : State :=
  {| error := error s; now := now s;
     timers := List.filter (λ t, negb (t.1 =? timer)%nat) (timers s);
     nextTimer := nextTimer s; cleanup := cleanup s |}.

(** The body of the effect:
    [if (error) { const timer = setTimeout(() => setError(''), 3000);
                  return () => clearTimeout(timer); }
     return undefined;] *)
Definition effect (s : State) : option nat * State :=
  if negb (String.eqb (error s) "") then
    let '(timer, s') := setTimeout 3000 s in (Some timer, s')
  else (None, s).

(** After a render in which a dependency of the effect changed, the
    cleanup of the previous run is called, then the body; what the body
    returns is the cleanup of this run. *)
Definition rerun (s : State) : State :=
  let s1 := match cleanup s with
            | Some timer => clearTimeout timer s
            | None => s
            end in
  let '(c, s2) := effect s1 in
  {| error := error s2; now := now s2; timers := timers s2;
     nextTimer := nextTimer s2; cleanup := c |}.

(** A render in which [error] is [msg]. The dependency list of the
    effect is [[error]]: the effect runs again when the message differs
    from that of the previous render, and not otherwise. *)
Definition commit (msg : string) (s : State) : State :=
  if bool_decide (msg = error s) then s
  else rerun {| error := msg; now := now s; timers := timers s;
                nextTimer := nextTimer s; cleanup := cleanup s |}.

(** The [setError] calls of one task (an event handler, the handlers of
    the promises that settle together), in order. React renders once
    after the task, with the text of the last call; the texts set in
    between are never rendered, and a task without a call renders
    nothing. *)
Definition task (calls : list string) (s : State) : State :=
  match last calls with
  | Some msg => commit msg s
  | None => s
  end.

(** A task whose one call is [setError(msg)]. *)
Definition setError (msg : string) (s : State) : State := task [msg] s.

(** What happens to the cell: a task calls [setError], time passes, or
    a timeout that is due calls its callback [() => setError('')]. *)
Inductive Event : Type :=
| SetErrors (calls : list string)
| Elapse (dt : N)
| Fire (timer : nat).

Definition isSetError (e : Event) : bool :=
  match e with SetErrors _ => true | _ => false end.

(** Time does not pass beyond the due time of a pending timeout, and a
    timeout fires once it is due; it is then no longer pending. *)
Definition next (e : Event) (s : State) : option State :=
  match e with
  | SetErrors calls => Some (task calls s)
  | Elapse dt =>
      if forallb (λ t, (now s + dt <=? t.2)%N) (timers s) then
        Some {| error := error s; now := (now s + dt)%N; timers := timers s;
                nextTimer := nextTimer s; cleanup := cleanup s |}
      else None
  | Fire timer =>
      match List.find (λ t, (t.1 =? timer)%nat) (timers s) with
      | Some (_, due) =>
          if (due <=? now s)%N then Some (setError "" (clearTimeout timer s))
          else None
      | None => None
      end
  end.

Fixpoint run (events : list Event) (s : State) : option State :=
  match events with
  | [] => Some s
  | e :: events' =>
      match next e s with
      | Some s' => run events' s'
      | None => None
      end
  end.

Definition reachable (s : State) : Prop :=
  ∃ events, run events initial = Some s.

(** *** Invariants *)

(** No message is displayed and no timeout is pending. *)
Definition idle (s : State) : Prop :=
  error s = "" ∧ timers s = [] ∧ cleanup s = None.

(** [msg] is displayed and the one pending timeout is the one that the
    effect armed for it, due at [due]. *)
Definition armed (msg : string) (timer : nat) (due : N) (s : State) : Prop :=
  msg ≠ "" ∧ error s = msg ∧ timers s = [(timer, due)]
  ∧ cleanup s = Some timer ∧ (now s ≤ due)%N.

Definition inv (s : State) : Prop :=
  idle s ∨ ∃ msg timer due, armed msg timer due s.

(** What [armed] becomes while no flow sets the error: the message
    stays with its timeout until [due], then it is cleared. *)
Definition pending_or_cleared (msg : string) (timer : nat) (due : N)
    (s : State) : Prop :=
  armed msg timer due s ∨ (idle s ∧ (due ≤ now s)%N).

End ErrorTimer.

(** ** Two services to run the flows on *)

(** A service that is out of reach: every request is rejected. *)
Definition offlineApi : TodoApi unit string :=
  {| USER_ID := 11;
     getTodos := λ s, (Rejected "offline", s);
     postTodo := λ _ s, (Rejected "offline", s);
     patchTodo := λ _ _ s, (Rejected "offline", s);
     deleteTodo := λ _ s, (Rejected "offline", s);
     arrival := λ A l, l;
     arrival_perm := λ A l, reflexivity l |}.

(** [{ ...todo, ...data }] *)
Definition applyPartial (data : PartialTodo) (todo : Todo) : Todo :=
  {| id := default (id todo) (p_id data);
     userId := default (userId todo) (p_userId data);
     title := default (title todo) (p_title data);
     completed := default (completed todo) (p_completed data);
     loading := match p_loading data with
                | Some v => Some v
                | None => loading todo
                end |}.

(** A service that keeps the records in a list and gives a new record
    the successor of the largest identifier; it answers the requests
    sent together in the reverse of the order they were sent in. *)
Definition memoryApi : TodoApi (list Todo) string :=
  {| USER_ID := 11;
     getTodos := λ db, (Fulfilled db, db);
     postTodo := λ n db,
       let created :=
         {| id := 1 + foldr Z.max 0 (id <$> db); userId := n_userId n;
            title := n_title n; completed := n_completed n;
            loading := None |} in
       (Fulfilled created, db ++ [created]);
     patchTodo := λ todoId data db,
       match List.find (λ todo, id todo =? todoId) db with
       | Some todo =>
           (Fulfilled (applyPartial data todo),
            (λ t, if id t =? todoId then applyPartial data t else t) <$> db)
       | None => (Rejected "not found", db)
       end;
     deleteTodo := λ todoId db,
       match List.find (λ todo, id todo =? todoId) db with
       | Some _ =>
           (Fulfilled tt, List.filter (λ todo, negb (id todo =? todoId)) db)
       | None => (Rejected "not found", db)
       end;
     arrival := λ A l, reverse l;
     arrival_perm := λ A l, reverse_Permutation l |}.

(** Collections and worlds to run the flows on. *)
Definition shopping : list Todo :=
  [ mkTodo 1 11 (js "milk") false None;
    mkTodo 2 11 (js "eggs") true None;
    mkTodo 3 11 (js "tea") true (Some false) ].

(** Two todos with one identifier, the first completed. *)
Definition twins : list Todo :=
  [ mkTodo 1 11 (js "a") true None; mkTodo 1 11 (js "b") false None ].

Definition online (e : string) : World (list Todo) :=
  mkWorld (mkApp shopping None e All) shopping [].

Definition offline (e : string) : World unit :=
  mkWorld (mkApp shopping None e Active) tt [].

(** * Properties *)

(** ** The pure steps *)

Lemma toggleValueOf_true (ts : list Todo) :
  toggleValueOf ts = true ↔ ∃ todo, todo ∈ ts ∧ completed todo = false.
Proof.
  unfold toggleValueOf, uncompletedTodos. split.
  - destruct (List.filter _ ts) as [|todo rest] eqn:E; [discriminate|].
    intros _. exists todo.
    assert (In todo (List.filter (λ t, negb (completed t)) ts)) as Hin
      by (rewrite E; left; reflexivity).
    apply filter_In in Hin as [Hin Hc].
    split; [by apply list_elem_of_In | by destruct (completed todo)].
  - intros (todo & Hin & Hc).
    assert (In todo (List.filter (λ t, negb (completed t)) ts)) as Hf.
    { apply filter_In. split; [by apply list_elem_of_In | by rewrite Hc]. }
    by destruct (List.filter _ ts).
Qed.

Lemma filter_ext_elem {A} (f g : A → bool) (l : list A) :
  (∀ x, x ∈ l → f x = g x) → List.filter f l = List.filter g l.
Proof.
  intros H. apply filter_ext_in. intros x Hin. apply H.
  by apply list_elem_of_In.
Qed.

Lemma filter_none {A} (l : list A) : List.filter (λ _, true) l = l.
Proof. induction l as [|x l IH]; [done|]. cbn. by rewrite IH. Qed.

Lemma reconcile_completed (v : bool) (todo : Todo) :
  completed (reconcile v todo) = v.
Proof. unfold reconcile; simpl. by destruct (completed todo), v. Qed.

Lemma reconcile_loading (v : bool) (todo : Todo) :
  loading (reconcile v todo) = Some false.
Proof. reflexivity. Qed.

Lemma count_split (ts : list Todo) :
  (length (uncompletedTodos ts) + length (completedTodos ts))%nat = length ts.
Proof.
  unfold uncompletedTodos, completedTodos.
  induction ts as [|todo ts IH]; [reflexivity|].
  simpl. destruct (completed todo); simpl; lia.
Qed.

(** C10. The two steps of toggle-all that rewrite the collection, the
    optimistic marking and the final reconciliation, keep the length of
    the collection and the position of every todo, and keep the id,
    the title and the userId of every todo: at each position only the
    completed and the loading fields may differ afterwards. *)
Theorem toggleAll_steps_frame (toggleValue : bool) (ts : list Todo) :
  length (reconcile toggleValue <$> ts) = length ts
  ∧ length (markLoading toggleValue <$> ts) = length ts
  ∧ (∀ i : nat,
       (reconcile toggleValue <$> ts) !! i = reconcile toggleValue <$> ts !! i
       ∧ (markLoading toggleValue <$> ts) !! i
           = markLoading toggleValue <$> ts !! i)
  ∧ (∀ todo : Todo,
       id (reconcile toggleValue todo) = id todo
       ∧ title (reconcile toggleValue todo) = title todo
       ∧ userId (reconcile toggleValue todo) = userId todo
       ∧ id (markLoading toggleValue todo) = id todo
       ∧ title (markLoading toggleValue todo) = title todo
       ∧ userId (markLoading toggleValue todo) = userId todo
       ∧ completed (markLoading toggleValue todo) = completed todo).
Proof.
  split; [apply length_fmap|]. split; [apply length_fmap|]. split.
  - intros i. by rewrite !list_lookup_fmap.
  - intros todo. unfold markLoading.
    by destruct (xorb (completed todo) toggleValue).
Qed.

(** ** The flows, over any service *)

(** Unfolds the sequencing of a flow down to the worlds it goes through. *)
Ltac run_flow :=
  unfold mbind, M_bind, mret, M_ret, request, readTodos,
    setTodos, setTempTodo, setError; cbn.

Section Flows.
Context {Srv Err : Type} {api : TodoApi Srv Err}.

Implicit Types (w : World Srv) (title : jsstring).

Lemma addTodo_empty title w :
  trim title = [] →
  addTodo title w
  = (Fulfilled tt,
     mkWorld (mkApp (todos (app w)) (tempTodo (app w))
                    "Title should not be empty" (todoFilterValue (app w)))
             (srv w) (log w)).
Proof. intros H. unfold addTodo. by rewrite H. Qed.

Lemma addTodo_sent title w result s :
  trim title ≠ [] →
  postTodo (newTodoOf (trim title)) (srv w) = (result, s) →
  addTodo title w
  = match result with
    | Fulfilled response =>
        (Fulfilled tt,
         mkWorld (mkApp (todos (app w) ++ [response]) None ""
                        (todoFilterValue (app w)))
                 s (log w ++ [PostTodo (newTodoOf (trim title))]))
    | Rejected err =>
        (Rejected err,
         mkWorld (mkApp (todos (app w)) None "Unable to add a todo"
                        (todoFilterValue (app w)))
                 s (log w ++ [PostTodo (newTodoOf (trim title))]))
    end.
Proof.
  intros Hne Hpost. unfold addTodo.
  destruct (trim title) as [|c rest] eqn:E; [done|].
  run_flow. rewrite Hpost. by destruct result.
Qed.

Lemma updateTodo_run todoId data w result s :
  patchTodo todoId data (srv w) = (result, s) →
  updateTodo todoId data w
  = match result with
    | Fulfilled response =>
        (Fulfilled tt,
         mkWorld (mkApp (replaceById response <$> todos (app w))
                        (tempTodo (app w)) (error (app w))
                        (todoFilterValue (app w)))
                 s (log w ++ [PatchTodo todoId data]))
    | Rejected err =>
        (Rejected err,
         mkWorld (mkApp (todos (app w)) (tempTodo (app w))
                        "Unable to update a todo" (todoFilterValue (app w)))
                 s (log w ++ [PatchTodo todoId data]))
    end.
Proof.
  intros H. unfold updateTodo, updateTodo_settled. run_flow.
  rewrite H. by destruct result.
Qed.

Lemma removeTodo_run todoId w result s :
  deleteTodo todoId (srv w) = (result, s) →
  removeTodo todoId w
  = match result with
    | Fulfilled _ =>
        (Fulfilled tt,
         mkWorld (mkApp (List.filter (λ todo, negb (id todo =? todoId))
                           (todos (app w)))
                        (tempTodo (app w)) "" (todoFilterValue (app w)))
                 s (log w ++ [DeleteTodo todoId]))
    | Rejected err =>
        (Rejected err,
         mkWorld (mkApp (todos (app w)) (tempTodo (app w))
                        "Unable to delete a todo" (todoFilterValue (app w)))
                 s (log w ++ [DeleteTodo todoId]))
    end.
Proof.
  intros H. unfold removeTodo, removeTodo_settled. run_flow.
  rewrite H. by destruct result as [[]|].
Qed.

(** C6. In every state of the application the number of active todos
    and the number of completed todos add up to the size of the
    collection, and both numbers (with the flags derived from them) are
    the same whatever filter mode is selected: they are computed from
    the whole collection, not from the filtered one. *)
Theorem counts_total_and_filter_independent w (mode : TodoFilterOptions) :
  (uncompletedTodosCount (counts (app w))
   + completedTodosCount (counts (app w)))%nat = length (todos (app w))
  ∧ counts (app (setTodoFilterValue mode w).2) = counts (app w)
  ∧ uncompletedTodosCount (counts (app w))
    = length (filterTodos (todos (app w)) Active)
  ∧ completedTodosCount (counts (app w))
    = length (filterTodos (todos (app w)) Completed)
  ∧ todoFilterValue (app (setTodoFilterValue mode w).2) = mode.
Proof.
  split; [apply count_split|]. by repeat split.
Qed.

(** C2. When the title trims to the empty string, the add flow sets
    the error to "Title should not be empty", sends no request (the log
    and the service are as before) and leaves the collection as it
    was. *)
Theorem addTodo_empty_title title w :
  trim title = [] →
  error (app (addTodo title w).2) = "Title should not be empty"
  ∧ log (addTodo title w).2 = log w
  ∧ srv (addTodo title w).2 = srv w
  ∧ todos (app (addTodo title w).2) = todos (app w).
Proof. intros H. by rewrite (addTodo_empty _ _ H). Qed.

(** C9. The promise of the add flow is fulfilled when the title trims
    to the empty string, with the same value as after a create request
    that succeeded, so the two cannot be told apart by the promise; it
    is rejected exactly when a create request was sent and failed, and
    then with the reason of that failure. *)
Theorem addTodo_promise title w :
  (trim title = [] → (addTodo title w).1 = Fulfilled tt)
  ∧ (∀ response,
       trim title ≠ [] →
       (postTodo (newTodoOf (trim title)) (srv w)).1 = Fulfilled response →
       (addTodo title w).1 = Fulfilled tt)
  ∧ (∀ err,
       (addTodo title w).1 = Rejected err
       ↔ trim title ≠ []
         ∧ (postTodo (newTodoOf (trim title)) (srv w)).1 = Rejected err).
Proof.
  split; [|split].
  - intros H. by rewrite (addTodo_empty _ _ H).
  - intros response Hne Hpost.
    destruct (postTodo (newTodoOf (trim title)) (srv w)) as [result s] eqn:E.
    rewrite (addTodo_sent _ _ _ _ Hne E). simpl in Hpost. by subst result.
  - intros err. destruct (decide (trim title = [])) as [Hempty|Hne].
    + rewrite (addTodo_empty _ _ Hempty). simpl. split; [done|]. by intros [].
    + destruct (postTodo (newTodoOf (trim title)) (srv w)) as [result s] eqn:E.
      rewrite (addTodo_sent _ _ _ _ Hne E). destruct result; simpl.
      * split; [done|]. by intros [_ ?].
      * split; [by intros [= ->] | by intros [_ [= ->]]].
Qed.

(** C3. When the create request of an add flow fails, the collection
    is as before (so is its length), the error is "Unable to add a
    todo" and the promise of the flow is rejected with the reason of
    the failure; and whether the request fails or succeeds, there is no
    temp todo once the flow has settled. *)
Theorem addTodo_request_settled title w result s :
  trim title ≠ [] →
  postTodo (newTodoOf (trim title)) (srv w) = (result, s) →
  tempTodo (app (addTodo title w).2) = None
  ∧ (∀ err, result = Rejected err →
       todos (app (addTodo title w).2) = todos (app w)
       ∧ length (todos (app (addTodo title w).2)) = length (todos (app w))
       ∧ error (app (addTodo title w).2) = "Unable to add a todo"
       ∧ (addTodo title w).1 = Rejected err).
Proof.
  intros Hne Hpost. rewrite (addTodo_sent _ _ _ _ Hne Hpost).
  split; [by destruct result|]. by intros err ->.
Qed.

(** C8. An update that succeeds leaves the error message as it was,
    whatever it was and whatever the service does with other requests;
    an add that succeeds and a delete that succeeds set it to the empty
    string. *)
Theorem update_success_keeps_error w :
  (∀ todoId data response s,
     patchTodo todoId data (srv w) = (Fulfilled response, s) →
     error (app (updateTodo todoId data w).2) = error (app w))
  ∧ (∀ title created s,
       trim title ≠ [] →
       postTodo (newTodoOf (trim title)) (srv w) = (Fulfilled created, s) →
       error (app (addTodo title w).2) = "")
  ∧ (∀ todoId s,
       deleteTodo todoId (srv w) = (Fulfilled tt, s) →
       error (app (removeTodo todoId w).2) = "").
Proof.
  split; [|split].
  - intros todoId data response s Hpatch.
    by rewrite (updateTodo_run _ _ _ _ _ Hpatch).
  - intros title created s Hne Hpost.
    by rewrite (addTodo_sent _ _ _ _ Hne Hpost).
  - intros todoId s Hdel. by rewrite (removeTodo_run _ _ _ _ Hdel).
Qed.

(** C4. When the request of a single-item update fails, the collection
    is as before, the error is "Unable to update a todo" and the
    promise is rejected with the reason of the failure; the item that
    asked for the update, by its checkbox or by its edit form, has its
    loading flag cleared when the update has settled. *)
Theorem updateTodo_failure w todoId data err s :
  patchTodo todoId data (srv w) = (Rejected err, s) →
  todos (app (updateTodo todoId data w).2) = todos (app w)
  ∧ error (app (updateTodo todoId data w).2) = "Unable to update a todo"
  ∧ (updateTodo todoId data w).1 = Rejected err
  ∧ (∀ todo st,
       todoId = id todo →
       data = data_completed (negb (completed todo)) →
       TodoItem.loading
         (TodoItem.handleTodoStatusChange todo updateTodo st w).1 = false
       ∧ (TodoItem.handleTodoStatusChange todo updateTodo st w).2
         = (updateTodo todoId data w).2)
  ∧ (∀ todo onDelete st,
       todoId = id todo →
       trim (TodoItem.editableTodoTitleValue st) ≠ title todo →
       trim (TodoItem.editableTodoTitleValue st) ≠ [] →
       data = data_title (trim (TodoItem.editableTodoTitleValue st)) →
       TodoItem.loading
         (TodoItem.handleEditTodoFormSubmit todo onDelete updateTodo st w).1
       = false
       ∧ (TodoItem.handleEditTodoFormSubmit todo onDelete updateTodo st w).2
         = (updateTodo todoId data w).2).
Proof.
  intros Hpatch. rewrite (updateTodo_run _ _ _ _ _ Hpatch).
  split; [done|]. split; [done|]. split; [done|]. split.
  - intros todo st -> ->. unfold TodoItem.handleTodoStatusChange.
    unfold mbind, M_bind. by rewrite (updateTodo_run _ _ _ _ _ Hpatch).
  - intros todo onDelete st -> Hchanged Hne ->.
    unfold TodoItem.handleEditTodoFormSubmit.
    rewrite bool_decide_eq_false_2 by done.
    destruct (trim (TodoItem.editableTodoTitleValue st)) eqn:E; [done|].
    cbn. unfold mbind, M_bind.
    by rewrite (updateTodo_run _ _ _ _ _ Hpatch).
Qed.

(** *** Requests and handlers *)

Lemma mapM_cons {A B} (f : A → M Srv B) (x : A) (l : list A) w :
  mapM f (x :: l) w
  = let '(y, w1) := f x w in
    let '(k, w2) := mapM f l w1 in (y :: k, w2).
Proof. reflexivity. Qed.

Lemma bind_run {A B} (m : M Srv A) (f : A → M Srv B) w :
  (m ≫= f) w = let '(a, w') := m w in f a w'.
Proof. reflexivity. Qed.

Lemma world_eta w : mkWorld (app w) (srv w) (log w) = w.
Proof. by destruct w. Qed.

Lemma mapM_ext_run {A B} (f g : A → M Srv B) (l : list A) w :
  (∀ x w', f x w' = g x w') → mapM f l w = mapM g l w.
Proof.
  intros Hfg. revert w. induction l as [|x l IH]; intros w; [done|].
  rewrite !mapM_cons, Hfg. destruct (g x w) as [y w1]. by rewrite IH.
Qed.

Lemma request_service_only {A} (r : Request) (f : Srv → Settled Err A * Srv) :
  service_only (request r f).
Proof. intros w a. unfold request. cbn. by destruct (f (srv w)). Qed.

Lemma updateTodo_settled_app_only (result : Settled Err Todo) :
  app_only (updateTodo_settled result : M Srv _).
Proof. intros w s lg. by destruct result. Qed.

Lemma removeTodo_settled_app_only (todoId : Z) (result : Settled Err unit) :
  app_only (removeTodo_settled todoId result : M Srv _).
Proof. intros w s lg. by destruct result. Qed.

Lemma mapM_service_only {X W} (f : X → M Srv W) (l : list X) :
  (∀ x, service_only (f x)) → service_only (mapM f l).
Proof.
  intros Hf. induction l as [|x l IH]; intros w a; [done|].
  rewrite !mapM_cons, (Hf x w a). destruct (f x w) as [y w1]. cbn [fst snd].
  rewrite (IH w1 a). by destruct (mapM f l w1).
Qed.

(** Requests that only talk to the service and handlers that only act
    on the application state can be run request by request. *)
Lemma in_order {X W R} (f : X → M Srv W) (h : W → M Srv R) (l : list X) w :
  (∀ x, service_only (f x)) →
  (∀ a, app_only (h a)) →
  (answers ← mapM f l; mapM h answers) w = mapM (λ x, a ← f x; h a) l w.
Proof.
  intros Hf Hh. revert w. induction l as [|x l IH]; intros w; [done|].
  rewrite bind_run, !mapM_cons, bind_run.
  destruct (f x w) as [y w1].
  pose proof (mapM_service_only f l Hf w1) as Hcollect.
  destruct (mapM f l w1) as [answers w2] eqn:E. cbn [fst snd] in Hcollect.
  assert (w2 = mkWorld (app w1) (srv w2) (log w2)) as ->.
  { specialize (Hcollect (app w1)). rewrite world_eta, E in Hcollect.
    by injection Hcollect. }
  rewrite mapM_cons, (Hh y w1). cbn [srv log].
  pose proof (Hh y w1 (srv w1) (log w1)) as Hw1.
  rewrite world_eta in Hw1.
  destruct (h y w1) as [z w1']. cbn [fst snd] in *.
  injection Hw1 as ->. cbn [app].
  by rewrite <- IH, bind_run, Hcollect.
Qed.

(** When the answers arrive in the order of the requests, toggle-all
    and clear-completed run [updateTodo] and [removeTodo] on the todos
    in turn, as [todosToToggle.map] and [completedTodos.map] are
    written. *)
Lemma updates_in_order (toggleValue : bool) (l : list Todo) w :
  (answers ← sendUpdates toggleValue l; mapM updateTodo_settled answers) w
  = mapM (λ todo, updateTodo (id todo) (data_completed toggleValue)) l w.
Proof.
  unfold sendUpdates. rewrite in_order; [done| |].
  - intros todo. apply request_service_only.
  - apply updateTodo_settled_app_only.
Qed.

Lemma deletes_in_order (l : list Todo) w :
  (answers ← sendDeletes l;
   mapM (λ answer, removeTodo_settled answer.1 answer.2) answers) w
  = mapM (λ todo, removeTodo (id todo)) l w.
Proof.
  unfold sendDeletes. rewrite in_order.
  - apply mapM_ext_run. intros todo w'. unfold removeTodo.
    rewrite !bind_run. by destruct (request _ _ w').
  - intros todo w' a. rewrite !bind_run, request_service_only.
    by destruct (request _ _ w').
  - intros [todoId result]. apply removeTodo_settled_app_only.
Qed.

(** *** Clear completed *)

Lemma sendDeletes_cons (todo : Todo) (cs : list Todo) w :
  sendDeletes (todo :: cs) w
  = let '(result, s) := deleteTodo (id todo) (srv w) in
    let '(answers, w2) :=
      sendDeletes cs (mkWorld (app w) s (log w ++ [DeleteTodo (id todo)])) in
    ((id todo, result) :: answers, w2).
Proof.
  unfold sendDeletes. rewrite mapM_cons. run_flow.
  by destruct (deleteTodo (id todo) (srv w)).
Qed.

(** Sending the delete requests touches the service and the log only. *)
Lemma sendDeletes_run (cs : list Todo) w :
  (sendDeletes cs w).1.*1 = id <$> cs
  ∧ app (sendDeletes cs w).2 = app w
  ∧ log (sendDeletes cs w).2
    = log w ++ ((λ todo, DeleteTodo (id todo)) <$> cs).
Proof.
  revert w. induction cs as [|todo cs IH]; intros w.
  - cbn. by rewrite app_nil_r.
  - rewrite sendDeletes_cons.
    destruct (deleteTodo (id todo) (srv w)) as [result s].
    set (w1 := mkWorld (app w) s (log w ++ [DeleteTodo (id todo)])).
    specialize (IH w1). destruct (sendDeletes cs w1) as [answers w2].
    cbn in *. destruct IH as (-> & -> & ->).
    by rewrite <- app_assoc.
Qed.

Lemma removeTodo_settled_fulfilled (todoId : Z) w :
  removeTodo_settled todoId (Fulfilled tt : Settled Err unit) w
  = (Fulfilled tt,
     mkWorld (mkApp (List.filter (λ todo, negb (id todo =? todoId))
                       (todos (app w)))
                    (tempTodo (app w)) "" (todoFilterValue (app w)))
             (srv w) (log w)).
Proof. reflexivity. Qed.

Lemma filter_filter_id (todoId : Z) (ids : list Z) (ts : list Todo) :
  List.filter (λ todo, negb (bool_decide (id todo ∈ ids)))
    (List.filter (λ todo, negb (id todo =? todoId)) ts)
  = List.filter (λ todo, negb (bool_decide (id todo ∈ todoId :: ids))) ts.
Proof.
  induction ts as [|todo ts IH]; [done|]. cbn.
  destruct (Z.eqb_spec (id todo) todoId) as [Heq|Hneq]; cbn.
  - rewrite (bool_decide_eq_true_2 (id todo ∈ todoId :: ids))
      by (rewrite Heq; left).
    cbn. apply IH.
  - rewrite IH.
    rewrite (bool_decide_ext (id todo ∈ todoId :: ids) (id todo ∈ ids));
      [done|].
    rewrite elem_of_cons. split; [by intros [?|?] | by right].
Qed.

(** The collection after the handlers of deletions that all succeeded:
    what remains are the todos with none of the deleted identifiers. *)
Lemma deletes_settled (answers : list (Z * Settled Err unit)) w :
  Forall (λ answer, isRejected answer.2 = false) answers →
  Forall (λ result, isRejected result = false)
    (mapM (λ answer, removeTodo_settled answer.1 answer.2) answers w).1
  ∧ todos (app
      (mapM (λ answer, removeTodo_settled answer.1 answer.2) answers w).2)
    = List.filter (λ todo, negb (bool_decide (id todo ∈ answers.*1)))
        (todos (app w))
  ∧ srv (mapM (λ answer, removeTodo_settled answer.1 answer.2) answers w).2
    = srv w
  ∧ log (mapM (λ answer, removeTodo_settled answer.1 answer.2) answers w).2
    = log w.
Proof.
  intros Hall. revert w.
  induction Hall as [|[todoId result] answers Hok _ IH]; intros w.
  - cbn. split; [constructor|]. split; [|done].
    rewrite <- (filter_none (todos (app w))) at 1.
    apply filter_ext_elem. intros todo _.
    rewrite bool_decide_eq_false_2; [done | apply not_elem_of_nil].
  - rewrite mapM_cons. cbn [fst snd]. destruct result as [[]|err]; [|done].
    rewrite removeTodo_settled_fulfilled.
    match goal with
    | |- context [mapM ?f answers ?w1] =>
        specialize (IH w1); destruct (mapM f answers w1) as [results w2]
    end.
    cbn in *. destruct IH as (Hres & -> & -> & ->).
    split; [by constructor|]. split; [|done].
    apply filter_filter_id.
Qed.

(** With identifiers that are unique in the collection, the todos that
    share no identifier with a completed one are the uncompleted. *)
Lemma unique_ids_uncompleted (ts : list Todo) :
  NoDup (id <$> ts) →
  List.filter
    (λ todo, negb (bool_decide (id todo ∈ id <$> completedTodos ts))) ts
  = uncompletedTodos ts.
Proof.
  intros Hnd. unfold uncompletedTodos. apply filter_ext_elem.
  intros todo Hin. destruct (completed todo) eqn:Hc; cbn.
  - rewrite bool_decide_eq_true_2; [done|].
    apply list_elem_of_fmap. exists todo. split; [done|].
    apply list_elem_of_In, filter_In. split; [by apply list_elem_of_In|done].
  - rewrite bool_decide_eq_false_2; [done|].
    intros (other & Hid & Hother)%list_elem_of_fmap.
    apply list_elem_of_In, filter_In in Hother as [Hother Hoc].
    apply list_elem_of_In in Hother.
    apply list_elem_of_lookup in Hin as [i Hi].
    apply list_elem_of_lookup in Hother as [j Hj].
    assert (i = j) as ->.
    { eapply NoDup_lookup; [exact Hnd| |];
        rewrite list_lookup_fmap; [by rewrite Hi | by rewrite Hj, Hid]. }
    congruence.
Qed.

Lemma removeCompletedTodos_steps w :
  removeCompletedTodos w
  = if (length (completedTodos (todos (app w))) =? 0)%nat
    then (Fulfilled tt, w)
    else
      let '(answers, w1) := sendDeletes (completedTodos (todos (app w))) w in
      let '(results, w2) :=
        mapM (λ answer, removeTodo_settled answer.1 answer.2)
          (arrival _ answers) w1 in
      (Fulfilled tt,
       if negb (length (List.filter isRejected results) =? 0)%nat
       then (setError "Some todos could not be deleted" w2).2
       else w2).
Proof.
  unfold removeCompletedTodos. unfold mbind, M_bind, readTodos.
  destruct (length _ =? 0)%nat; [done|].
  destruct (sendDeletes _ w) as [answers w1].
  destruct ((mapM _ (arrival _ answers) : M Srv _) w1) as [results w2].
  by destruct (negb _).
Qed.

End Flows.

(** ** The error auto-dismiss effect *)

Module AutoDismiss.
Import ErrorTimer.

Local Open Scope N_scope.

Lemma eqb_empty_false (msg : string) : msg ≠ "" → String.eqb msg "" = false.
Proof. intros H. by apply String.eqb_neq. Qed.

Lemma setError_same (s : State) : setError (error s) s = s.
Proof.
  unfold setError, task, commit. cbn [last]. by rewrite bool_decide_eq_true_2.
Qed.

Lemma setError_arms_from_idle (msg : string) (s : State) :
  idle s → msg ≠ "" →
  armed msg (nextTimer s) (now s + 3000) (setError msg s)
  ∧ now (setError msg s) = now s.
Proof.
  destruct s as [e n ts nt c]. intros (He & Hts & Hc) Hmsg. cbn in *. subst.
  unfold setError, task, commit. cbn. rewrite bool_decide_eq_false_2 by done.
  unfold rerun, effect. cbn. rewrite (eqb_empty_false _ Hmsg). cbn.
  repeat split; try done. cbn. lia.
Qed.

Lemma setError_replaces (msg old : string) (timer : nat) (due : N) (s : State) :
  armed old timer due s → msg ≠ "" → msg ≠ old →
  armed msg (nextTimer s) (now s + 3000) (setError msg s)
  ∧ now (setError msg s) = now s.
Proof.
  destruct s as [e n ts nt c]. intros (Hold & He & Hts & Hc & Hdue) Hmsg Hne.
  cbn in *. subst.
  unfold setError, task, commit. cbn. rewrite bool_decide_eq_false_2 by done.
  unfold rerun, effect. cbn. rewrite Nat.eqb_refl. cbn.
  rewrite (eqb_empty_false _ Hmsg). cbn.
  repeat split; try done. cbn. lia.
Qed.

Lemma setError_clears (old : string) (timer : nat) (due : N) (s : State) :
  armed old timer due s →
  idle (setError "" s) ∧ now (setError "" s) = now s.
Proof.
  destruct s as [e n ts nt c]. intros (Hold & He & Hts & Hc & Hdue).
  cbn in *. subst.
  unfold setError, task, commit. cbn. rewrite bool_decide_eq_false_2 by done.
  unfold rerun, effect. cbn. by rewrite Nat.eqb_refl.
Qed.

Lemma setError_inv (msg : string) (s : State) : inv s → inv (setError msg s).
Proof.
  intros [Hidle | (old & timer & due & Harmed)].
  - destruct (decide (msg = "")) as [->|Hmsg].
    + destruct Hidle as (He & ?). rewrite <- He at 1. rewrite setError_same.
      by left.
    + right. eexists _, _, _. by apply setError_arms_from_idle.
  - destruct (decide (msg = "")) as [->|Hmsg].
    + left. eapply setError_clears. exact Harmed.
    + destruct (decide (msg = old)) as [->|Hne].
      * destruct Harmed as (? & He & ?). rewrite <- He at 1.
        rewrite setError_same. right. by eexists _, _, _.
      * right. eexists _, _, _. by eapply setError_replaces.
Qed.

Lemma next_quiet (e : Event) (msg : string) (timer : nat) (due : N)
    (s s' : State) :
  isSetError e = false →
  pending_or_cleared msg timer due s →
  next e s = Some s' →
  pending_or_cleared msg timer due s'.
Proof.
  intros Hq Hs Hnext. destruct e as [m | dt | t]; [done| |].
  - cbn in Hnext. destruct (forallb _ _) eqn:Hall; [|done].
    injection Hnext as <-.
    destruct Hs as [(Hmsg & He & Hts & Hc & Hdue) | [(He & Hts & Hc) Hdue]].
    + left. rewrite Hts in Hall. cbn in Hall.
      rewrite andb_true_r in Hall. apply N.leb_le in Hall.
      by repeat split.
    + right. cbn. split; [done|lia].
  - cbn in Hnext.
    destruct Hs as [(Hmsg & He & Hts & Hc & Hdue) | [(He & Hts & Hc) Hdue]].
    + rewrite Hts in Hnext. cbn in Hnext.
      destruct (Nat.eqb_spec timer t) as [<-|Hneq]; [|done].
      destruct (N.leb_spec due (now s)) as [Hle|Hgt]; [|done].
      injection Hnext as <-. right.
      destruct s as [e n ts nt c]. cbn in *. subst.
      unfold setError, task, commit, clearTimeout. cbn.
      rewrite Nat.eqb_refl. cbn.
      rewrite bool_decide_eq_false_2 by done.
      unfold rerun, effect. cbn. by repeat split.
    + by rewrite Hts in Hnext.
Qed.


Lemma task_inv (calls : list string) (s : State) :
  inv s → inv (task calls s).
Proof.
  intros Hs. unfold task. destruct (last calls) as [msg|]; [|done].
  by apply (setError_inv msg).
Qed.

Lemma next_inv (e : Event) (s s' : State) :
  inv s → next e s = Some s' → inv s'.
Proof.
  intros Hs Hnext. destruct e as [calls | dt | t].
  - injection Hnext as <-. by apply task_inv.
  - destruct Hs as [Hidle | (msg & timer & due & Harmed)].
    + left. cbn in Hnext. destruct (forallb _ _); [|done].
      by injection Hnext as <-.
    + assert (pending_or_cleared msg timer due s') as [H|[H _]].
      { eapply (next_quiet (Elapse dt)); [done| by left | done]. }
      * right. by eexists _, _, _.
      * by left.
  - destruct Hs as [Hidle | (msg & timer & due & Harmed)].
    + cbn in Hnext. destruct Hidle as (_ & Hts & _). by rewrite Hts in Hnext.
    + assert (pending_or_cleared msg timer due s') as [H|[H _]].
      { eapply (next_quiet (Fire t)); [done| by left | done]. }
      * right. by eexists _, _, _.
      * by left.
Qed.

Lemma reachable_inv (s : State) : reachable s → inv s.
Proof.
  intros [events Hrun].
  assert (inv initial) as Hinit by (by left).
  revert Hrun Hinit. generalize initial as s0. revert s.
  induction events as [|e events IH]; intros s s0 Hrun Hs0.
  - cbn in Hrun. by injection Hrun as <-.
  - cbn in Hrun. destruct (next e s0) as [s1|] eqn:Hnext; [|done].
    eapply IH; [exact Hrun|]. by eapply next_inv.
Qed.



End AutoDismiss.

(** ** The flows on the two services *)

Example trim_examples :
  trim (js "  buy milk  ") = js "buy milk"
  ∧ trim [9; 32; 160; 8232; 65279]%N = []
  ∧ trim (js "a b") = js "a b".
Proof. by vm_compute. Qed.

(** The scenario of the specification: a first toggle-all completes
    both todos, a second one reactivates both. *)
Example toggle_twice :
  let w := mkWorld (mkApp [mkTodo 1 11 (js "a") false None;
                           mkTodo 2 11 (js "b") true None] None "" All)
                   [mkTodo 1 11 (js "a") false None;
                    mkTodo 2 11 (js "b") true None] [] in
  let w1 := (toggleAllTodos (api := memoryApi) w).2 in
  let w2 := (toggleAllTodos (api := memoryApi) w1).2 in
  completed <$> todos (app w1) = [true; true]
  ∧ completed <$> todos (app w2) = [false; false].
Proof. by vm_compute. Qed.

(** A collection outside the data model, in which an uncompleted todo
    shares its identifier with a completed one: every deletion succeeds
    and the uncompleted todo is removed with the completed one, because
    [removeTodo] filters by identifier. *)
Example removeCompleted_shared_id :
  Forall (λ answer : Z * Settled string unit, isRejected answer.2 = false)
    (sendDeletes (api := memoryApi) (completedTodos twins)
       (mkWorld (mkApp twins None "" All) twins [])).1
  ∧ mkTodo 1 11 (js "b") false None ∈ twins
  ∧ todos (app (removeCompletedTodos (api := memoryApi)
                  (mkWorld (mkApp twins None "" All) twins [])).2) = []
  ∧ todos (app (removeCompletedTodos (api := memoryApi)
                  (mkWorld (mkApp twins None "" All) twins [])).2)
    ≠ uncompletedTodos twins.
Proof.
  split; [repeat constructor|]. split; [|split].
  - right. left.
  - reflexivity.
  - discriminate.
Qed.


Lemma addTodo_empty_title_witness :
  trim (js "   ") = []
  ∧ error (app (addTodo (api := memoryApi) (js "   ") (online "")).2)
    = "Title should not be empty"
  ∧ log (addTodo (api := memoryApi) (js "   ") (online "")).2 = []
  ∧ todos (app (addTodo (api := memoryApi) (js "   ") (online "")).2)
    = shopping.
Proof.
  assert (trim (js "   ") = []) as H by reflexivity.
  destruct (addTodo_empty_title (api := memoryApi) (js "   ") (online "") H)
    as (He & Hlog & _ & Hts).
  by repeat split.
Defined.

Lemma addTodo_promise_witness :
  (addTodo (api := memoryApi) (js "   ") (online "")).1 = Fulfilled tt
  ∧ (addTodo (api := memoryApi) (js "jam") (online "")).1 = Fulfilled tt
  ∧ (addTodo (api := offlineApi) (js "jam") (offline "")).1
    = Rejected "offline".
Proof.
  split; [|split].
  - apply (addTodo_promise (api := memoryApi) (js "   ") (online "")).
    reflexivity.
  - eapply (addTodo_promise (api := memoryApi) (js "jam") (online ""));
      [discriminate | reflexivity].
  - apply (addTodo_promise (api := offlineApi) (js "jam") (offline "")).
    split; [discriminate | reflexivity].
Defined.

Lemma addTodo_request_settled_witness :
  trim (js " jam ") ≠ []
  ∧ tempTodo (app (addTodo (api := offlineApi) (js " jam ") (offline "")).2)
    = None
  ∧ todos (app (addTodo (api := offlineApi) (js " jam ") (offline "")).2)
    = shopping
  ∧ error (app (addTodo (api := offlineApi) (js " jam ") (offline "")).2)
    = "Unable to add a todo"
  ∧ (addTodo (api := offlineApi) (js " jam ") (offline "")).1
    = Rejected "offline".
Proof.
  assert (trim (js " jam ") ≠ []) as H by discriminate.
  destruct (addTodo_request_settled (api := offlineApi) (js " jam ")
              (offline "") (Rejected "offline") tt H eq_refl) as [Htemp Hfail].
  destruct (Hfail "offline" eq_refl) as (Hts & _ & He & Hout).
  by repeat split.
Defined.

Lemma updateTodo_failure_witness :
  todos (app (updateTodo (api := offlineApi) 1 (data_completed true)
                (offline "")).2) = shopping
  ∧ error (app (updateTodo (api := offlineApi) 1 (data_completed true)
                  (offline "")).2) = "Unable to update a todo"
  ∧ (updateTodo (api := offlineApi) 1 (data_completed true) (offline "")).1
    = Rejected "offline"
  ∧ TodoItem.loading
      (TodoItem.handleTodoStatusChange (mkTodo 1 11 (js "milk") false None)
         (updateTodo (api := offlineApi))
         (TodoItem.initial (mkTodo 1 11 (js "milk") false None)
            (isLoadingProp (mkTodo 1 11 (js "milk") false None)))
         (offline "")).1 = false.
Proof.
  destruct (updateTodo_failure (api := offlineApi) (offline "") 1
              (data_completed true) "offline" tt eq_refl)
    as (Hts & He & Hout & Hitem & _).
  destruct (Hitem (mkTodo 1 11 (js "milk") false None)
              (TodoItem.initial (mkTodo 1 11 (js "milk") false None)
                 (isLoadingProp (mkTodo 1 11 (js "milk") false None)))
              eq_refl eq_refl) as [Hloading _].
  by repeat split.
Defined.

Lemma update_success_keeps_error_witness :
  error (app (updateTodo (api := memoryApi) 1 (data_completed true)
                (online "Unable to delete a todo")).2)
    = "Unable to delete a todo"
  ∧ error (app (addTodo (api := memoryApi) (js "jam")
                  (online "Unable to delete a todo")).2) = ""
  ∧ error (app (removeTodo (api := memoryApi) 2
                  (online "Unable to delete a todo")).2) = "".
Proof.
  destruct (update_success_keeps_error (api := memoryApi)
              (online "Unable to delete a todo")) as (Hupd & Hadd & Hdel).
  split; [|split].
  - eapply Hupd. reflexivity.
  - eapply Hadd; [discriminate | reflexivity].
  - eapply Hdel. reflexivity.
Defined.


(** * Further properties of the code *)

(** ** Filters and what is rendered *)

Lemma filter_twice {A} (f : A → bool) (l : list A) :
  List.filter f (List.filter f l) = List.filter f l.
Proof.
  induction l as [|x l IH]; [done|]. cbn.
  destruct (f x) eqn:E; [|done]. cbn. by rewrite E, IH.
Qed.

Lemma filter_sublist {A} (f : A → bool) (l : list A) :
  sublist (List.filter f l) l.
Proof.
  induction l as [|x l IH]; [constructor|]. cbn.
  destruct (f x); by constructor.
Qed.

Lemma filter_elem {A} (f : A → bool) (l : list A) (x : A) :
  x ∈ List.filter f l ↔ x ∈ l ∧ f x = true.
Proof. by rewrite !list_elem_of_In, filter_In. Qed.

(** X1. Filtering is idempotent in every mode: filtering what a mode
    shows by the same mode shows the same todos. *)
Theorem filterTodos_idempotent (ts : list Todo) (mode : TodoFilterOptions) :
  filterTodos (filterTodos ts mode) mode = filterTodos ts mode.
Proof. apply filter_twice. Qed.

(** X2. What a mode shows is taken from the collection in its order
    and is exactly the todos the mode asks for; the mode All shows the
    whole collection. *)
Theorem filterTodos_selects (ts : list Todo) (mode : TodoFilterOptions) :
  sublist (filterTodos ts mode) ts
  ∧ (∀ todo, todo ∈ filterTodos ts mode
       ↔ todo ∈ ts ∧ match mode with
                      | All => True
                      | Active => completed todo = false
                      | Completed => completed todo = true
                      end)
  ∧ filterTodos ts All = ts.
Proof.
  split; [apply filter_sublist|]. split; [|apply filter_none].
  intros todo. unfold filterTodos. rewrite filter_elem.
  destruct mode, (completed todo); cbn; intuition congruence.
Qed.

(** X3. The modes Active and Completed split the collection: every
    todo is shown by exactly one of them, and together they show the
    collection up to order. *)
Theorem filterTodos_partition (ts : list Todo) :
  filterTodos ts Active ++ filterTodos ts Completed ≡ₚ ts
  ∧ (∀ todo, ¬ (todo ∈ filterTodos ts Active
                 ∧ todo ∈ filterTodos ts Completed)).
Proof.
  split.
  - unfold filterTodos. induction ts as [|todo ts IH]; [done|]. cbn.
    destruct (completed todo); cbn.
    + rewrite <- Permutation_middle. by constructor.
    + by constructor.
  - intros todo. unfold filterTodos. rewrite !filter_elem.
    destruct (completed todo); cbn; intuition congruence.
Qed.

Lemma no_uncompleted (ts : list Todo) :
  (length (uncompletedTodos ts) =? 0)%nat = true
  ↔ Forall (λ todo, completed todo = true) ts.
Proof.
  unfold uncompletedTodos. induction ts as [|todo ts IH]; cbn.
  - by split.
  - destruct (completed todo) eqn:Hc; cbn.
    + rewrite IH. split; [by constructor|]. by inversion 1.
    + split; [done|]. inversion 1; congruence.
Qed.

Lemma all_completed_filter (ts : list Todo) :
  Forall (λ todo, completed todo = true) ts ↔ completedTodos ts = ts.
Proof.
  unfold completedTodos. induction ts as [|todo ts IH]; cbn.
  - by split.
  - destruct (completed todo) eqn:Hc.
    + split.
      * inversion 1; subst. f_equal. by apply IH.
      * intros [= Heq]. constructor; [done|]. by apply IH.
    + split; [inversion 1; congruence|].
      intros Heq. pose proof (filter_sublist (λ t, completed t) ts) as Hs.
      rewrite Heq in Hs. apply sublist_length in Hs. cbn in Hs. lia.
Qed.

(** X4. The flag the header receives says that toggle-all would
    reactivate: it is the negation of the target of toggle-all, it
    holds exactly when every todo is completed (so also on the empty
    collection), and the collection is then what the mode Completed
    shows. *)
Theorem areAllTodosCompleted_spec (s : AppState) :
  areAllTodosCompleted (counts s) = negb (toggleValueOf (todos s))
  ∧ (areAllTodosCompleted (counts s) = true
       ↔ Forall (λ todo, completed todo = true) (todos s))
  ∧ (areAllTodosCompleted (counts s) = true
       ↔ filterTodos (todos s) Completed = todos s).
Proof.
  split; [|split].
  - unfold counts, toggleValueOf. cbn. by destruct (_ =? _)%nat.
  - apply no_uncompleted.
  - unfold counts. cbn. rewrite no_uncompleted. apply all_completed_filter.
Qed.

Lemma shown_keys (s : AppState) :
  NoDup (id <$> todos s) →
  0 ∉ id <$> todos s →
  NoDup (TodoList.key
           <$> (if showList s
                then TodoList.render (filteredTodos s) (tempTodo s)
                else []))
  ∧ length (if showList s
            then TodoList.render (filteredTodos s) (tempTodo s)
            else [])
    = (length (filteredTodos s)
       + match tempTodo s with Some _ => 1 | None => 0 end)%nat
  ∧ (∀ item,
       item ∈ (if showList s
               then TodoList.render (filteredTodos s) (tempTodo s)
               else []) →
       TodoList.key item = 0 →
       TodoList.isLoading item = true
       ∧ tempTodo s = Some (TodoList.todo item)).
Proof.
  intros Hnd H0.
  assert (sublist (id <$> filteredTodos s) (id <$> todos s)) as Hsub
    by apply fmap_sublist, filter_sublist.
  assert (0 ∉ id <$> filteredTodos s) as H0'
    by (intros Hin; apply H0; by eapply elem_of_sublist).
  unfold showList, filteredTodos in *.
  destruct (todos s) as [|t0 ts] eqn:Ets.
  - cbn in *. destruct (tempTodo s) as [temp|]; cbn.
    + split; [by apply NoDup_singleton|]. split; [done|].
      intros item ->%list_elem_of_singleton _. done.
    + split; [constructor|]. split; [done|]. by intros item ?%elem_of_nil.
  - cbn [length Nat.eqb negb orb]. unfold TodoList.render.
    rewrite fmap_app, length_app, length_fmap, <- list_fmap_compose.
    change (TodoList.key ∘ _) with id.
    split; [|split].
    + apply NoDup_app. split; [by eapply sublist_NoDup|]. split.
      * intros k Hk. destruct (tempTodo s); cbn; [|apply not_elem_of_nil].
        intros ->%list_elem_of_singleton. done.
      * destruct (tempTodo s); cbn; [apply NoDup_singleton | constructor].
    + by destruct (tempTodo s).
    + intros item [Hin|Hin]%elem_of_app Hkey.
      * apply list_elem_of_fmap in Hin as (todo & -> & Hin). cbn in Hkey.
        exfalso. apply H0'. apply list_elem_of_fmap. by exists todo.
      * destruct (tempTodo s); cbn in Hin; [|by apply elem_of_nil in Hin].
        by apply list_elem_of_singleton in Hin as ->.
Qed.

(** X5. With unique identifiers, none of them 0, the items that [App]
    renders have distinct React keys, the temp todo included, and the
    item with key 0 is the temp todo, shown loading. When the user
    identifier is set (not 0) there is one item per todo the filter
    shows and one more while a temp todo exists; when it is not set,
    [App] renders no item at all. *)
Theorem renderedItems_keys {Srv Err : Type} {api : TodoApi Srv Err}
    (s : AppState) :
  NoDup (id <$> todos s) →
  0 ∉ id <$> todos s →
  NoDup (TodoList.key <$> renderedItems s)
  ∧ (USER_ID ≠ 0 →
       length (renderedItems s)
       = (length (filteredTodos s)
          + match tempTodo s with Some _ => 1 | None => 0 end)%nat)
  ∧ (USER_ID = 0 → renderedItems s = [])
  ∧ (∀ item, item ∈ renderedItems s → TodoList.key item = 0 →
       TodoList.isLoading item = true
       ∧ tempTodo s = Some (TodoList.todo item)).
Proof.
  intros Hnd H0. destruct (shown_keys s Hnd H0) as (Hkeys & Hlen & Htemp).
  unfold renderedItems. destruct (Z.eqb_spec USER_ID 0) as [Hnone|Hset].
  - split; [constructor|]. split; [done|]. split; [done|].
    by intros item ?%elem_of_nil.
  - split; [done|]. split; [done|]. split; [done|]. done.
Qed.

(** Escape discards what was typed: the item leaves edit mode and
    its input holds the title of the todo again, the loading flag as it
    was; any other key leaves the item as the typing left it. *)
Lemma escape_discards_edit (todo : Todo) (key : string) (value : jsstring)
    (st : TodoItem.State) :
  (key = "Escape" →
     TodoItem.handleKeyDown todo key
       (TodoItem.handleEditTodoInputChange value st)
     = TodoItem.mkState false (TodoItem.visible st) (TodoItem.loading st)
         (title todo))
  ∧ (key ≠ "Escape" →
       TodoItem.handleKeyDown todo key
         (TodoItem.handleEditTodoInputChange value st)
       = TodoItem.mkState (TodoItem.editable st) (TodoItem.visible st)
           (TodoItem.loading st) value).
Proof.
  unfold TodoItem.handleKeyDown. split.
  - by intros ->.
  - intros Hne. by rewrite (proj2 (String.eqb_neq _ _) Hne).
Qed.

(** ** Whitespace around a title *)

Lemma trimStart_pad (pad s : jsstring) :
  Forall (λ c, isWhiteSpace c = true) pad →
  trimStart (pad ++ s) = trimStart s.
Proof. induction 1 as [|c pad Hc _ IH]; [done|]. cbn. by rewrite Hc. Qed.

Lemma trimStart_app (s p : jsstring) :
  trimStart (s ++ p)
  = match trimStart s with [] => trimStart p | _ :: _ => trimStart s ++ p end.
Proof.
  induction s as [|c s IH]; cbn; [by destruct (trimStart p)|].
  by destruct (isWhiteSpace c).
Qed.

Lemma trimStart_all (pad : jsstring) :
  Forall (λ c, isWhiteSpace c = true) pad → trimStart pad = [].
Proof. induction 1 as [|c pad Hc _ IH]; [done|]. cbn. by rewrite Hc. Qed.

Lemma trimEnd_pad (s pad : jsstring) :
  Forall (λ c, isWhiteSpace c = true) pad → trimEnd (s ++ pad) = trimEnd s.
Proof.
  intros Hpad. unfold trimEnd. rewrite reverse_app, trimStart_pad; [done|].
  by apply Forall_reverse.
Qed.

Lemma trim_pad (before s after : jsstring) :
  Forall (λ c, isWhiteSpace c = true) before →
  Forall (λ c, isWhiteSpace c = true) after →
  trim (before ++ s ++ after) = trim s.
Proof.
  intros Hb Ha. unfold trim. rewrite (trimStart_pad _ _ Hb), trimStart_app.
  destruct (trimStart s) as [|c rest]; [|by apply trimEnd_pad].
  by rewrite (trimStart_all _ Ha).
Qed.

(** The first and the last code unit of a trimmed string are not
    whitespace. *)
Lemma trimStart_head (s : jsstring) :
  match trimStart s with [] => True | c :: _ => isWhiteSpace c = false end.
Proof.
  induction s as [|c s IH]; [done|]. cbn.
  destruct (isWhiteSpace c) eqn:E; [done|]. cbn. exact E.
Qed.

Lemma trimStart_suffix (s : jsstring) : ∃ pad, s = pad ++ trimStart s.
Proof.
  induction s as [|c s [pad IH]]; [by exists []|]. cbn.
  destruct (isWhiteSpace c); [|by exists []].
  exists (c :: pad). cbn. by rewrite <- IH.
Qed.

Lemma trim_ends (s : jsstring) :
  match head (trim s) with
  | Some c => isWhiteSpace c = false
  | None => True
  end
  ∧ match last (trim s) with
    | Some c => isWhiteSpace c = false
    | None => True
    end.
Proof.
  unfold trim, trimEnd. split.
  - pose proof (trimStart_head s) as Hhead.
    destruct (trimStart_suffix (reverse (trimStart s))) as [pad Hpad].
    apply (f_equal reverse) in Hpad.
    rewrite reverse_involutive, reverse_app in Hpad.
    destruct (reverse (trimStart (reverse (trimStart s)))) as [|c rest];
      [done|].
    rewrite Hpad in Hhead. exact Hhead.
  - rewrite last_reverse.
    pose proof (trimStart_head (reverse (trimStart s))) as Hhead.
    by destruct (trimStart (reverse (trimStart s))) as [|c rest].
Qed.

(** ** The single-item flows *)

Section SingleFlows.
Context {Srv Err : Type} {api : TodoApi Srv Err}.

Implicit Types (w : World Srv) (title : jsstring).

Lemma replaceById_id (response todo : Todo) :
  id (replaceById response todo) = id todo.
Proof.
  unfold replaceById. by destruct (Z.eqb_spec (id todo) (id response)).
Qed.

Lemma replaceById_ids (response : Todo) (ts : list Todo) :
  id <$> (replaceById response <$> ts) = id <$> ts.
Proof.
  rewrite <- list_fmap_compose. apply list_fmap_ext.
  intros i todo _. apply replaceById_id.
Qed.

Lemma filter_id_absent (todoId : Z) (ts : list Todo) :
  todoId ∉ id <$> ts →
  List.filter (λ todo, negb (id todo =? todoId)) ts = ts.
Proof.
  intros Hout. rewrite <- (filter_none ts) at 2. apply filter_ext_elem.
  intros todo Hin. destruct (Z.eqb_spec (id todo) todoId) as [<-|]; [|done].
  exfalso. apply Hout. apply list_elem_of_fmap. by exists todo.
Qed.

(** X6. An add whose create request succeeds puts the record of the
    service at the end of the collection, which grows by one and keeps
    every todo it had in its place; the error and the temp todo are
    cleared, and the one request sent carries the user, completed =
    false and the trimmed title, which is not empty and neither starts
    nor ends with whitespace. *)
Theorem addTodo_success title w response s :
  trim title ≠ [] →
  postTodo (newTodoOf (trim title)) (srv w) = (Fulfilled response, s) →
  todos (app (addTodo title w).2) = todos (app w) ++ [response]
  ∧ length (todos (app (addTodo title w).2)) = S (length (todos (app w)))
  ∧ (∀ i todo, todos (app w) !! i = Some todo →
       todos (app (addTodo title w).2) !! i = Some todo)
  ∧ error (app (addTodo title w).2) = ""
  ∧ tempTodo (app (addTodo title w).2) = None
  ∧ log (addTodo title w).2
    = log w ++ [PostTodo (mkNewTodo USER_ID (trim title) false)]
  ∧ match head (trim title) with
    | Some c => isWhiteSpace c = false
    | None => False
    end
  ∧ match last (trim title) with
    | Some c => isWhiteSpace c = false
    | None => False
    end.
Proof.
  intros Hne Hpost. rewrite (addTodo_sent _ _ _ _ Hne Hpost). cbn.
  split; [done|]. split; [rewrite length_app; cbn; lia|].
  split; [intros i todo Hi; by apply lookup_app_l_Some|].
  split; [done|]. split; [done|]. split; [done|].
  destruct (trim_ends title) as [Hhead Hlast].
  split.
  - destruct (trim title); [done|exact Hhead].
  - destruct (last (trim title)) eqn:E; [exact Hlast|].
    by apply last_None in E.
Qed.

(** X7. Whitespace around the title makes no difference to the add
    flow: padding the title on either side with whitespace gives the
    same result and the same world. *)
Theorem addTodo_ignores_padding (before after : jsstring) title w :
  Forall (λ c, isWhiteSpace c = true) before →
  Forall (λ c, isWhiteSpace c = true) after →
  addTodo (before ++ title ++ after) w = addTodo title w.
Proof. intros Hb Ha. unfold addTodo. by rewrite (trim_pad _ _ _ Hb Ha). Qed.

(** X8. A single-item update never changes which identifiers the
    collection holds nor their order, whether it succeeds or fails. When
    it succeeds, every todo with the identifier of the record that the
    service returned is replaced by that record and every other todo is
    kept as it is; a record with an identifier that is not in the
    collection changes nothing. *)
Theorem updateTodo_keeps_ids todoId (data : PartialTodo) w :
  id <$> todos (app (updateTodo todoId data w).2) = id <$> todos (app w)
  ∧ (∀ response s,
       patchTodo todoId data (srv w) = (Fulfilled response, s) →
       (∀ i todo, todos (app w) !! i = Some todo →
          todos (app (updateTodo todoId data w).2) !! i
          = Some (if bool_decide (id todo = id response)
                  then response else todo))
       ∧ (id response ∉ id <$> todos (app w) →
            todos (app (updateTodo todoId data w).2) = todos (app w))).
Proof.
  destruct (patchTodo todoId data (srv w)) as [result s] eqn:Hpatch.
  rewrite (updateTodo_run _ _ _ _ _ Hpatch). split.
  - destruct result; cbn; [apply replaceById_ids | done].
  - intros response s' [= -> <-]. cbn. split.
    + intros i todo Hi. rewrite list_lookup_fmap, Hi. cbn. f_equal.
      unfold replaceById.
      destruct (Z.eqb_spec (id todo) (id response)) as [Heq|Hneq].
      * by rewrite bool_decide_eq_true_2.
      * by rewrite bool_decide_eq_false_2.
    + intros Hout. rewrite <- (list_fmap_id (todos (app w))) at 2.
      apply list_fmap_ext. intros i todo Hi. unfold replaceById.
      destruct (Z.eqb_spec (id todo) (id response)) as [Heq|Hneq]; [|done].
      exfalso. apply Hout. rewrite <- Heq. apply list_elem_of_fmap.
      exists todo. split; [done|]. by eapply list_elem_of_lookup_2.
Qed.

(** X9. A delete that succeeds removes the todos with the identifier
    it was asked for and nothing else, keeping the order of the rest.
    With unique identifiers the collection shrinks by exactly one todo
    when the identifier is in it, and identifiers stay unique; when the
    identifier is not in the collection, the collection is as before. *)
Theorem removeTodo_success todoId w s :
  deleteTodo todoId (srv w) = (Fulfilled tt, s) →
  (∀ todo, todo ∈ todos (app (removeTodo todoId w).2)
     ↔ todo ∈ todos (app w) ∧ id todo ≠ todoId)
  ∧ sublist (todos (app (removeTodo todoId w).2)) (todos (app w))
  ∧ (todoId ∉ id <$> todos (app w) →
       todos (app (removeTodo todoId w).2) = todos (app w))
  ∧ (NoDup (id <$> todos (app w)) →
       NoDup (id <$> todos (app (removeTodo todoId w).2))
       ∧ (todoId ∈ id <$> todos (app w) →
            S (length (todos (app (removeTodo todoId w).2)))
            = length (todos (app w)))).
Proof.
  intros Hdel. rewrite (removeTodo_run _ _ _ _ Hdel). cbn.
  split; [|split; [apply filter_sublist|split; [apply filter_id_absent|]]].
  - intros todo. rewrite filter_elem.
    destruct (Z.eqb_spec (id todo) todoId); cbn; intuition congruence.
  - intros Hnd. split.
    + eapply sublist_NoDup; [exact Hnd|]. apply fmap_sublist, filter_sublist.
    + clear Hdel. induction (todos (app w)) as [|todo ts IH]; cbn.
      * by intros ?%elem_of_nil.
      * apply NoDup_cons in Hnd as [Hfresh Hnd].
        destruct (Z.eqb_spec (id todo) todoId) as [<-|Hneq]; cbn.
        -- intros _. by rewrite (filter_id_absent _ _ Hfresh).
        -- intros [?|Hin]%elem_of_cons; [done|]. f_equal. by apply IH.
Qed.

(** X10. A delete whose request fails leaves the collection as it was,
    sets the error to "Unable to delete a todo" and rejects with the
    reason of the failure; the item whose delete button was used has
    its loading flag cleared when the delete has settled. *)
Theorem removeTodo_failure todoId w err s :
  deleteTodo todoId (srv w) = (Rejected err, s) →
  todos (app (removeTodo todoId w).2) = todos (app w)
  ∧ error (app (removeTodo todoId w).2) = "Unable to delete a todo"
  ∧ (removeTodo todoId w).1 = Rejected err
  ∧ (∀ todo st,
       id todo = todoId →
       TodoItem.loading
         (TodoItem.handleDeleteTodoButtonClick (Srv := Srv) (Err := Err)
            todo removeTodo st w).1 = false
       ∧ (TodoItem.handleDeleteTodoButtonClick todo removeTodo st w).2
         = (removeTodo todoId w).2).
Proof.
  intros Hdel. rewrite (removeTodo_run _ _ _ _ Hdel).
  split; [done|]. split; [done|]. split; [done|].
  intros todo st <-. unfold TodoItem.handleDeleteTodoButtonClick.
  by rewrite !bind_run, (removeTodo_run _ _ _ _ Hdel).
Qed.

(** X11. Adding a todo and then deleting the record that the service
    created gives back the collection as it was, when both requests
    succeed and the identifier of the record was not in the collection;
    the error is then empty and there is no temp todo. *)
Theorem add_then_remove title w response s s' :
  trim title ≠ [] →
  postTodo (newTodoOf (trim title)) (srv w) = (Fulfilled response, s) →
  id response ∉ id <$> todos (app w) →
  deleteTodo (id response) s = (Fulfilled tt, s') →
  todos (app (removeTodo (id response) (addTodo title w).2).2)
  = todos (app w)
  ∧ error (app (removeTodo (id response) (addTodo title w).2).2) = ""
  ∧ tempTodo (app (removeTodo (id response) (addTodo title w).2).2) = None
  ∧ log (removeTodo (id response) (addTodo title w).2).2
    = log w ++ [PostTodo (newTodoOf (trim title)); DeleteTodo (id response)].
Proof.
  intros Hne Hpost Hfresh Hdel. rewrite (addTodo_sent _ _ _ _ Hne Hpost).
  cbn [snd].
  match goal with
  | |- context [removeTodo _ ?w1] =>
      rewrite (removeTodo_run (id response) w1 _ _ Hdel)
  end.
  cbn. split; [|split; [done|split; [done|by rewrite <- app_assoc]]].
  rewrite List.filter_app. cbn. rewrite Z.eqb_refl. cbn.
  by rewrite app_nil_r, (filter_id_absent _ _ Hfresh).
Qed.

(** X12. Loading sends one request. When it succeeds the collection is
    replaced by the todos of the service, whatever it held, and the
    error is left as it was; when it fails the collection is left as
    it was and the error is "Unable to load todos". Either way the temp
    todo and the filter mode are untouched. *)
Theorem loadTodos_outcomes w result s :
  getTodos (srv w) = (result, s) →
  (loadTodos w).2
  = mkWorld
      (mkApp (match result with
              | Fulfilled response => response
              | Rejected _ => todos (app w)
              end)
             (tempTodo (app w))
             (match result with
              | Fulfilled _ => error (app w)
              | Rejected _ => "Unable to load todos"
              end)
             (todoFilterValue (app w)))
      s (log w ++ [GetTodos]).
Proof.
  intros Hget. unfold loadTodos. rewrite bind_run. unfold request.
  rewrite Hget. by destruct result.
Qed.

(** *** The handlers of an item *)


Lemma removeTodo_log todoId w :
  log (removeTodo todoId w).2 = log w ++ [DeleteTodo todoId].
Proof.
  destruct (deleteTodo todoId (srv w)) as [result s] eqn:Hdel.
  rewrite (removeTodo_run _ _ _ _ Hdel). by destruct result.
Qed.

(** X13. Submitting the edit form with a title that, once trimmed, is
    the title of the todo calls neither the update nor the delete flow,
    whatever they are: the world is as before, the item leaves edit mode
    and keeps its loading flag. So does a submit that follows Escape,
    when the title of the todo has no whitespace around it. *)
Theorem editSubmit_unchanged (todo : Todo)
    (onDelete : Z → M Srv (Settled Err unit))
    (onUpdate : Z → PartialTodo → M Srv (Settled Err unit))
    (st : TodoItem.State) w :
  (trim (TodoItem.editableTodoTitleValue st) = title todo →
     TodoItem.handleEditTodoFormSubmit todo onDelete onUpdate st w
     = (TodoItem.mkState false (TodoItem.visible st) (TodoItem.loading st)
          (title todo), w))
  ∧ (trim (title todo) = title todo →
       TodoItem.handleEditTodoFormSubmit todo onDelete onUpdate
         (TodoItem.handleKeyDown todo "Escape" st) w
       = (TodoItem.mkState false (TodoItem.visible st) (TodoItem.loading st)
            (title todo), w)).
Proof.
  split; intros Hsame; unfold TodoItem.handleEditTodoFormSubmit;
    cbn -[trim]; rewrite Hsame; by rewrite bool_decide_eq_true_2.
Qed.

(** X14. Submitting the edit form with a title that trims to the empty
    string, for a todo whose title is not empty, deletes the todo
    instead of saving: one delete request for the todo is sent and no
    update request, the collection and the error are what the delete
    flow makes them, and the item ends with an empty input and not
    loading. *)
Theorem editSubmit_empty_deletes (todo : Todo) (st : TodoItem.State) w :
  trim (TodoItem.editableTodoTitleValue st) = [] →
  title todo ≠ [] →
  (TodoItem.handleEditTodoFormSubmit todo removeTodo updateTodo st w).2
  = (removeTodo (id todo) w).2
  ∧ log (TodoItem.handleEditTodoFormSubmit todo removeTodo updateTodo st w).2
    = log w ++ [DeleteTodo (id todo)]
  ∧ (TodoItem.handleEditTodoFormSubmit todo removeTodo updateTodo st w).1
    = TodoItem.mkState (TodoItem.editable st) (TodoItem.visible st) false [].
Proof.
  intros Hempty Htitle. unfold TodoItem.handleEditTodoFormSubmit.
  rewrite Hempty, bool_decide_eq_false_2 by done. cbn.
  unfold TodoItem.handleDeleteTodoButtonClick. rewrite bind_run.
  pose proof (removeTodo_log (id todo) w) as Hlog.
  destruct (removeTodo (id todo) w) as [outcome w1]. by cbn in *.
Qed.



End SingleFlows.

(** ** The bulk flows *)

Section BulkFlows.
Context {Srv Err : Type} {api : TodoApi Srv Err}.

Implicit Types (w : World Srv).

Lemma rejected_count {A} (l : list (Settled Err A)) :
  negb (length (List.filter isRejected l) =? 0)%nat = existsb isRejected l.
Proof. induction l as [|[?|?] l IH]; cbn; done. Qed.

Lemma existsb_Permutation {A} (f : A → bool) (l l' : list A) :
  l ≡ₚ l' → existsb f l = existsb f l'.
Proof.
  induction 1 as [|x l l' _ IH|x y l|l l' l'' _ IH1 _ IH2]; cbn.
  - done.
  - by rewrite IH.
  - by destruct (f x), (f y).
  - by rewrite IH1.
Qed.

Lemma existsb_fmap_eq {A B} (f : A → bool) (g : B → bool)
    (l : list A) (l' : list B) :
  f <$> l = g <$> l' → existsb f l = existsb g l'.
Proof.
  revert l'. induction l as [|x l IH]; intros [|y l'] [=]; cbn; [done|].
  f_equal; [done|]. by apply IH.
Qed.

Lemma updateTodo_settled_run (result : Settled Err Todo) w :
  updateTodo_settled result w
  = match result with
    | Fulfilled response =>
        (Fulfilled tt,
         mkWorld (mkApp (replaceById response <$> todos (app w))
                        (tempTodo (app w)) (error (app w))
                        (todoFilterValue (app w)))
                 (srv w) (log w))
    | Rejected err =>
        (Rejected err,
         mkWorld (mkApp (todos (app w)) (tempTodo (app w))
                        "Unable to update a todo" (todoFilterValue (app w)))
                 (srv w) (log w))
    end.
Proof. by destruct result. Qed.

Lemma removeTodo_settled_run (todoId : Z) (result : Settled Err unit) w :
  removeTodo_settled todoId result w
  = match result with
    | Fulfilled _ =>
        (Fulfilled tt,
         mkWorld (mkApp (List.filter (λ todo, negb (id todo =? todoId))
                           (todos (app w)))
                        (tempTodo (app w)) "" (todoFilterValue (app w)))
                 (srv w) (log w))
    | Rejected err =>
        (Rejected err,
         mkWorld (mkApp (todos (app w)) (tempTodo (app w))
                        "Unable to delete a todo" (todoFilterValue (app w)))
                 (srv w) (log w))
    end.
Proof. by destruct result. Qed.

(** The handlers of the updates, whatever the answers: identifiers
    stay in place, and the error is that of a rejection if there was
    one. *)
Lemma updates_settled (answers : list (Settled Err Todo)) w :
  id <$> todos (app (mapM updateTodo_settled answers w).2)
  = id <$> todos (app w)
  ∧ isRejected <$> (mapM updateTodo_settled answers w).1
    = isRejected <$> answers
  ∧ error (app (mapM updateTodo_settled answers w).2)
    = (if existsb isRejected answers then "Unable to update a todo"
       else error (app w))
  ∧ tempTodo (app (mapM updateTodo_settled answers w).2) = tempTodo (app w)
  ∧ todoFilterValue (app (mapM updateTodo_settled answers w).2)
    = todoFilterValue (app w)
  ∧ srv (mapM updateTodo_settled answers w).2 = srv w
  ∧ log (mapM updateTodo_settled answers w).2 = log w.
Proof.
  revert w. induction answers as [|result answers IH]; intros w; [done|].
  rewrite mapM_cons, updateTodo_settled_run.
  destruct result as [response|err].
  - match goal with
    | |- context [mapM ?f answers ?w1] =>
        specialize (IH w1); destruct (mapM f answers w1) as [results w2]
    end.
    cbn in *. destruct IH as (-> & -> & -> & -> & -> & -> & ->).
    by rewrite replaceById_ids.
  - match goal with
    | |- context [mapM ?f answers ?w1] =>
        specialize (IH w1); destruct (mapM f answers w1) as [results w2]
    end.
    cbn in *. destruct IH as (-> & -> & -> & -> & -> & -> & ->).
    by destruct (existsb isRejected answers).
Qed.

Lemma sendUpdates_cons (v : bool) (todo : Todo) (l : list Todo) w :
  sendUpdates v (todo :: l) w
  = let '(result, s) := patchTodo (id todo) (data_completed v) (srv w) in
    let '(answers, w2) :=
      sendUpdates v l
        (mkWorld (app w) s
           (log w ++ [PatchTodo (id todo) (data_completed v)])) in
    (result :: answers, w2).
Proof.
  unfold sendUpdates. rewrite mapM_cons. unfold request.
  by destruct (patchTodo (id todo) (data_completed v) (srv w)).
Qed.

Lemma sendUpdates_run (v : bool) (l : list Todo) w :
  app (sendUpdates v l w).2 = app w
  ∧ log (sendUpdates v l w).2
    = log w ++ ((λ todo, PatchTodo (id todo) (data_completed v)) <$> l).
Proof.
  revert w. induction l as [|todo l IH]; intros w.
  - cbn. by rewrite app_nil_r.
  - rewrite sendUpdates_cons.
    destruct (patchTodo (id todo) (data_completed v) (srv w)) as [result s].
    set (w1 := mkWorld (app w) s _).
    specialize (IH w1). destruct (sendUpdates v l w1) as [answers w2].
    cbn in *. destruct IH as (-> & ->). by rewrite <- app_assoc.
Qed.

Lemma sendUpdates_service_only (v : bool) (l : list Todo) :
  service_only (sendUpdates v l).
Proof.
  apply mapM_service_only. intros todo. apply request_service_only.
Qed.

Lemma markLoading_ids (v : bool) (ts : list Todo) :
  id <$> (markLoading v <$> ts) = id <$> ts.
Proof.
  rewrite <- list_fmap_compose. apply list_fmap_ext. intros i todo _.
  unfold markLoading. cbn. by destruct (xorb _ _).
Qed.

Lemma reconcile_ids (v : bool) (ts : list Todo) :
  id <$> (reconcile v <$> ts) = id <$> ts.
Proof. by rewrite <- list_fmap_compose. Qed.

(** The todos that toggle-all asks the service to update. *)
Lemma todosToToggle_spec (ts : list Todo) :
  List.filter (λ todo, xorb (completed todo) (toggleValueOf ts)) ts
  = if toggleValueOf ts then uncompletedTodos ts else ts.
Proof.
  destruct (toggleValueOf ts) eqn:Hv.
  - apply filter_ext_elem. intros todo _. by destruct (completed todo).
  - unfold toggleValueOf in Hv. apply negb_false_iff, no_uncompleted in Hv.
    rewrite <- (proj1 (all_completed_filter ts) Hv) at 2.
    apply filter_ext_elem. intros todo _. by destruct (completed todo).
Qed.

Lemma toggleAllTodos_steps w :
  toggleAllTodos w
  = if (length (todos (app w)) =? 0)%nat then (Fulfilled tt, w)
    else
      let v := toggleValueOf (todos (app w)) in
      let '(answers, w1) :=
        sendUpdates v
          (List.filter (λ todo, xorb (completed todo) v) (todos (app w)))
          (setTodos (λ _, markLoading v <$> todos (app w)) w).2 in
      let '(results, w2) := mapM updateTodo_settled (arrival _ answers) w1 in
      (Fulfilled tt,
       (setTodos (λ prevTodos, reconcile v <$> prevTodos)
          (if negb (length (List.filter isRejected results) =? 0)%nat
           then (setError "Some todos could not be updated" w2).2
           else w2)).2).
Proof.
  unfold toggleAllTodos. unfold mbind, M_bind, readTodos.
  destruct (length _ =? 0)%nat; [done|]. cbv zeta.
  destruct (setTodos _ w) as [[] w0] eqn:E0. cbn [snd].
  destruct (sendUpdates _ _ w0) as [answers w1].
  destruct ((mapM updateTodo_settled (arrival _ answers) : M Srv _) w1)
    as [results w2].
  by destruct (negb _).
Qed.

(** Toggle-all on a collection that is not empty, as one step. *)
Lemma toggleAll_run w :
  todos (app w) ≠ [] →
  ∃ l',
    id <$> l' = id <$> todos (app w)
    ∧ toggleAllTodos w
      = (Fulfilled tt,
         mkWorld
           (mkApp (reconcile (toggleValueOf (todos (app w))) <$> l')
              (tempTodo (app w))
              (if existsb isRejected
                    (sendUpdates (toggleValueOf (todos (app w)))
                       (List.filter
                          (λ todo, xorb (completed todo)
                                     (toggleValueOf (todos (app w))))
                          (todos (app w))) w).1
               then "Some todos could not be updated"
               else error (app w))
              (todoFilterValue (app w)))
           (srv (sendUpdates (toggleValueOf (todos (app w)))
                   (List.filter
                      (λ todo, xorb (completed todo)
                                 (toggleValueOf (todos (app w))))
                      (todos (app w))) w).2)
           (log w ++ ((λ todo,
                         PatchTodo (id todo)
                           (data_completed (toggleValueOf (todos (app w)))))
                        <$> List.filter
                              (λ todo, xorb (completed todo)
                                         (toggleValueOf (todos (app w))))
                              (todos (app w))))).
Proof.
  intros Hne. rewrite toggleAllTodos_steps.
  destruct (todos (app w)) as [|t0 ts0] eqn:Ets; [done|].
  cbn [length Nat.eqb]. rewrite <- Ets in *. cbv zeta.
  set (v := toggleValueOf (todos (app w))).
  set (toToggle := List.filter _ (todos (app w))).
  pose proof (sendUpdates_run v toToggle w) as (Happ & Hlog).
  cbn [setTodos snd].
  rewrite (sendUpdates_service_only v toToggle w).
  destruct (sendUpdates v toToggle w) as [answers ws]. cbn [fst snd] in *.
  match goal with
  | |- context [mapM updateTodo_settled ?l ?w1] =>
      pose proof (updates_settled l w1)
        as (Hids & Hrej & Herr & Ht & Hf & Hs & Hl);
        destruct ((mapM updateTodo_settled l : M Srv _) w1) as [results w2]
  end.
  cbn [fst snd app todos tempTodo error todoFilterValue srv log] in *.
  exists (todos (app w2)). split; [by rewrite Hids, markLoading_ids|].
  rewrite rejected_count, (existsb_fmap_eq _ _ _ _ Hrej),
    (existsb_Permutation _ _ _ (arrival_perm _ answers)).
  rewrite (existsb_Permutation _ _ _ (arrival_perm _ answers)) in Herr.
  destruct (existsb isRejected answers);
    cbn [setError snd app todos tempTodo error todoFilterValue srv log];
    by rewrite ?Herr, Ht, Hf, Hs, Hl, Hlog.
Qed.

Lemma uniform_filter (c : bool) (l : list Todo) :
  Forall (λ todo, completed todo = c) l →
  completedTodos l = (if c then l else [])
  ∧ uncompletedTodos l = (if c then [] else l).
Proof.
  unfold completedTodos, uncompletedTodos.
  induction 1 as [|todo l Hc _ [IH1 IH2]]; [by destruct c|].
  cbn. rewrite Hc, IH1, IH2. by destruct c.
Qed.

Lemma toggleAll_empty w :
  todos (app w) = [] → toggleAllTodos w = (Fulfilled tt, w).
Proof. intros H. rewrite toggleAllTodos_steps. by rewrite H. Qed.

(** X17. Toggle-all always fulfils its promise and never changes which
    identifiers the collection holds, nor their order, nor its length,
    whatever the service answers: unique identifiers stay unique. *)
Theorem toggleAll_keeps_ids w :
  (toggleAllTodos w).1 = Fulfilled tt
  ∧ id <$> todos (app (toggleAllTodos w).2) = id <$> todos (app w)
  ∧ length (todos (app (toggleAllTodos w).2)) = length (todos (app w))
  ∧ (NoDup (id <$> todos (app w)) →
       NoDup (id <$> todos (app (toggleAllTodos w).2))).
Proof.
  assert ((toggleAllTodos w).1 = Fulfilled tt
          ∧ id <$> todos (app (toggleAllTodos w).2) = id <$> todos (app w))
    as (Hout & Hids).
  { destruct (decide (todos (app w) = [])) as [Hempty|Hne].
    - by rewrite (toggleAll_empty _ Hempty).
    - destruct (toggleAll_run w Hne) as (l' & Hids & ->). cbn.
      by rewrite reconcile_ids. }
  split; [done|]. split; [done|]. split; [|by rewrite Hids].
  by rewrite <- (length_fmap id), Hids, length_fmap.
Qed.

(** X18. Toggle-all sends one update request for each todo whose
    completed field differs from the target, in the order of the
    collection, each asking for completed = target alone: for the
    uncompleted todos when there are some, for all todos otherwise. On
    a collection that is not empty that is at least one request. *)
Theorem toggleAll_requests w :
  log (toggleAllTodos w).2
  = log w
    ++ ((λ todo,
           PatchTodo (id todo)
             (mkPartial None None None
                (Some (toggleValueOf (todos (app w)))) None))
          <$> (if toggleValueOf (todos (app w))
               then uncompletedTodos (todos (app w))
               else todos (app w)))
  ∧ (todos (app w) ≠ [] →
       (if toggleValueOf (todos (app w))
        then uncompletedTodos (todos (app w))
        else todos (app w)) ≠ []).
Proof.
  split.
  - destruct (decide (todos (app w) = [])) as [Hempty|Hne].
    + rewrite (toggleAll_empty _ Hempty), Hempty. cbn. by rewrite app_nil_r.
    + destruct (toggleAll_run w Hne) as (l' & _ & ->). cbn [snd log].
      by rewrite todosToToggle_spec.
  - intros Hne. unfold toggleValueOf.
    destruct (uncompletedTodos (todos (app w))); by cbn.
Qed.

(** X19. After toggle-all the error is "Some todos could not be
    updated" when the service rejected at least one of the update
    requests, and is what it was before when it rejected none. *)
Theorem toggleAll_error w :
  error (app (toggleAllTodos w).2)
  = (if existsb isRejected
          (sendUpdates (toggleValueOf (todos (app w)))
             (if toggleValueOf (todos (app w))
              then uncompletedTodos (todos (app w))
              else todos (app w)) w).1
     then "Some todos could not be updated"
     else error (app w)).
Proof.
  destruct (decide (todos (app w) = [])) as [Hempty|Hne].
  - by rewrite (toggleAll_empty _ Hempty), Hempty.
  - destruct (toggleAll_run w Hne) as (l' & _ & ->). cbn [snd app error].
    by rewrite todosToToggle_spec.
Qed.

(** X20. After toggle-all on a collection that is not empty, the
    target of the next toggle-all is the negation of this one; the
    filter mode that matches the target shows the whole collection and
    the opposite mode shows nothing. *)
Theorem toggleAll_flips w :
  todos (app w) ≠ [] →
  toggleValueOf (todos (app (toggleAllTodos w).2))
  = negb (toggleValueOf (todos (app w)))
  ∧ filterTodos (todos (app (toggleAllTodos w).2))
      (if toggleValueOf (todos (app w)) then Completed else Active)
    = todos (app (toggleAllTodos w).2)
  ∧ filterTodos (todos (app (toggleAllTodos w).2))
      (if toggleValueOf (todos (app w)) then Active else Completed)
    = [].
Proof.
  intros Hne. destruct (toggleAll_run w Hne) as (l' & Hids & ->).
  cbn [snd app todos]. set (v := toggleValueOf (todos (app w))).
  assert (Forall (λ todo, completed todo = v) (reconcile v <$> l')) as Hall.
  { apply Forall_fmap, Forall_true. intros todo. apply reconcile_completed. }
  assert (reconcile v <$> l' ≠ []) as Hne'.
  { intros Heq%fmap_nil_inv. subst l'. by destruct (todos (app w)). }
  destruct (uniform_filter _ _ Hall) as [Hc Hu].
  unfold toggleValueOf at 1. rewrite Hu.
  change (filterTodos (reconcile v <$> l') Completed)
    with (completedTodos (reconcile v <$> l')).
  change (filterTodos (reconcile v <$> l') Active)
    with (uncompletedTodos (reconcile v <$> l')).
  destruct v; rewrite ?Hc, ?Hu; [done|].
  split; [|done]. by destruct (reconcile false <$> l').
Qed.

(** *** Clear completed *)

Lemma deleted_Permutation (answers answers' : list (Z * Settled Err unit))
    (todoId : Z) :
  answers ≡ₚ answers' →
  todoId ∈ (List.filter (λ a, negb (isRejected a.2)) answers).*1
  ↔ todoId ∈ (List.filter (λ a, negb (isRejected a.2)) answers').*1.
Proof.
  intros Hperm. rewrite !list_elem_of_fmap.
  split; intros (a & -> & [Hin Hf]%filter_elem); exists a;
    (split; [done|]); apply filter_elem; (split; [|done]).
  - by rewrite <- Hperm.
  - by rewrite Hperm.
Qed.

(** The handlers of the deletions, whatever the answers: the todos
    that remain are those with no identifier of a deletion that
    succeeded. *)
Lemma deletes_settled_any (answers : list (Z * Settled Err unit)) w :
  todos (app (mapM (λ a, removeTodo_settled a.1 a.2) answers w).2)
  = List.filter
      (λ todo,
         negb (bool_decide
                 (id todo
                  ∈ (List.filter (λ a, negb (isRejected a.2)) answers).*1)))
      (todos (app w))
  ∧ isRejected <$> (mapM (λ a, removeTodo_settled a.1 a.2) answers w).1
    = (λ a, isRejected a.2) <$> answers
  ∧ (existsb (λ a, isRejected a.2) answers = false →
       error (app (mapM (λ a, removeTodo_settled a.1 a.2) answers w).2)
       = match answers with [] => error (app w) | _ :: _ => "" end)
  ∧ tempTodo (app (mapM (λ a, removeTodo_settled a.1 a.2) answers w).2)
    = tempTodo (app w)
  ∧ todoFilterValue
      (app (mapM (λ a, removeTodo_settled a.1 a.2) answers w).2)
    = todoFilterValue (app w)
  ∧ srv (mapM (λ a, removeTodo_settled a.1 a.2) answers w).2 = srv w
  ∧ log (mapM (λ a, removeTodo_settled a.1 a.2) answers w).2 = log w.
Proof.
  revert w. induction answers as [|[todoId result] answers IH]; intros w.
  - cbn. split; [|done].
    rewrite <- (filter_none (todos (app w))) at 1.
    apply filter_ext_elem. intros todo _.
    rewrite bool_decide_eq_false_2; [done | apply not_elem_of_nil].
  - rewrite mapM_cons. cbn [fst snd]. rewrite removeTodo_settled_run.
    destruct result as [[]|err].
    + match goal with
      | |- context [mapM ?f answers ?w1] =>
          specialize (IH w1); destruct (mapM f answers w1) as [results w2]
      end.
      cbn in *. destruct IH as (-> & -> & Herr & -> & -> & -> & ->).
      split; [apply filter_filter_id|]. split; [done|]. split; [|done].
      intros Hall. rewrite (Herr Hall). by destruct answers.
    + match goal with
      | |- context [mapM ?f answers ?w1] =>
          specialize (IH w1); destruct (mapM f answers w1) as [results w2]
      end.
      cbn in *. by destruct IH as (-> & -> & _ & -> & -> & -> & ->).
Qed.

Lemma removeCompleted_none w :
  completedTodos (todos (app w)) = [] →
  removeCompletedTodos w = (Fulfilled tt, w).
Proof. intros H. rewrite removeCompletedTodos_steps. by rewrite H. Qed.

(** Clear-completed with something to clear, as one step. *)
Lemma removeCompleted_run w :
  completedTodos (todos (app w)) ≠ [] →
  removeCompletedTodos w
  = (Fulfilled tt,
     mkWorld
       (mkApp
          (List.filter
             (λ todo,
                negb (bool_decide
                        (id todo
                         ∈ (List.filter (λ a, negb (isRejected a.2))
                              (sendDeletes (completedTodos (todos (app w)))
                                 w).1).*1)))
             (todos (app w)))
          (tempTodo (app w))
          (if existsb (λ a, isRejected a.2)
                (sendDeletes (completedTodos (todos (app w))) w).1
           then "Some todos could not be deleted" else "")
          (todoFilterValue (app w)))
       (srv (sendDeletes (completedTodos (todos (app w))) w).2)
       (log w ++ ((λ todo, DeleteTodo (id todo))
                    <$> completedTodos (todos (app w))))).
Proof.
  intros Hne. rewrite removeCompletedTodos_steps.
  destruct (completedTodos (todos (app w))) as [|c cs] eqn:Ecs; [done|].
  cbn [length Nat.eqb]. rewrite <- Ecs in *.
  pose proof (sendDeletes_run (completedTodos (todos (app w))) w)
    as (Hids & Happ & Hlog).
  destruct (sendDeletes _ w) as [answers w1]. cbn [fst snd] in *.
  assert (answers ≠ []) as Hanswers.
  { intros ->. cbn in Hids. symmetry in Hids. by apply fmap_nil_inv in Hids. }
  pose proof (deletes_settled_any (arrival _ answers) w1)
    as (Hts & Hrej & Herr & Ht & Hf & Hs & Hl).
  destruct ((mapM _ (arrival _ answers) : M Srv _) w1) as [results w2].
  cbn [fst snd] in *.
  rewrite rejected_count, (existsb_fmap_eq _ _ _ _ Hrej),
    (existsb_Permutation _ _ _ (arrival_perm _ answers)).
  rewrite (existsb_Permutation _ _ _ (arrival_perm _ answers)) in Herr.
  assert (todos (app w2)
          = List.filter
              (λ todo,
                 negb (bool_decide
                         (id todo
                          ∈ (List.filter (λ a, negb (isRejected a.2))
                               answers).*1)))
              (todos (app w))) as Hts'.
  { rewrite Hts, Happ. apply filter_ext_elem. intros todo _. f_equal.
    apply bool_decide_ext, deleted_Permutation, arrival_perm. }
  destruct (existsb (λ a, isRejected a.2) answers) eqn:Hex.
  - cbn [setError snd]. by rewrite Hts', Ht, Hf, Hs, Hl, Hlog, Happ.
  - specialize (Herr eq_refl).
    assert (error (app w2) = "") as Herr'.
    { rewrite Herr. destruct (arrival _ answers) eqn:Ea; [|done].
      exfalso. apply Hanswers. apply Permutation_nil_r.
      by rewrite <- Ea, arrival_perm. }
    destruct w2 as [[ts2 temp2 err2 f2] s2 lg2].
    cbn [app todos tempTodo error todoFilterValue srv log] in *.
    by rewrite Hts', Ht, Hf, Hs, Hl, Hlog, Happ, Herr'.
Qed.

(** X21. The bulk flows with nothing to do change nothing and send
    nothing: toggle-all on the empty collection and clear-completed on
    a collection without a completed todo fulfil their promise and leave
    the world, the error included, exactly as it was. *)
Theorem bulk_flows_nothing_to_do w :
  (todos (app w) = [] → toggleAllTodos w = (Fulfilled tt, w))
  ∧ (Forall (λ todo, completed todo = false) (todos (app w)) →
       removeCompletedTodos w = (Fulfilled tt, w)).
Proof.
  split; [apply toggleAll_empty|].
  intros Hall. apply removeCompleted_none.
  by destruct (uniform_filter _ _ Hall) as [-> _].
Qed.

(** X22. Clear-completed never rejects, also when deletions fail. It
    keeps the order of the collection, and a todo stays exactly when no
    deletion asked for its identifier succeeded: the todos whose
    deletion failed remain. When there was something to clear, the
    error afterwards is "Some todos could not be deleted" if the service
    rejected a deletion, and empty if it rejected none. *)
Theorem removeCompleted_partial w :
  (removeCompletedTodos w).1 = Fulfilled tt
  ∧ sublist (todos (app (removeCompletedTodos w).2)) (todos (app w))
  ∧ (∀ todo,
       todo ∈ todos (app (removeCompletedTodos w).2)
       ↔ todo ∈ todos (app w)
         ∧ ¬ ∃ answer,
               answer ∈ (sendDeletes (completedTodos (todos (app w))) w).1
               ∧ answer.1 = id todo ∧ isRejected answer.2 = false)
  ∧ (completedTodos (todos (app w)) ≠ [] →
       error (app (removeCompletedTodos w).2)
       = if existsb (λ a, isRejected a.2)
              (sendDeletes (completedTodos (todos (app w))) w).1
         then "Some todos could not be deleted" else "").
Proof.
  destruct (decide (completedTodos (todos (app w)) = [])) as [Hnone|Hsome].
  - rewrite (removeCompleted_none _ Hnone), Hnone. cbn.
    split; [done|]. split; [done|]. split; [|done].
    intros todo. split; [|by intros [? _]].
    intros Hin. split; [done|]. by intros (a & ?%elem_of_nil & _).
  - rewrite (removeCompleted_run _ Hsome). cbn [fst snd app todos error].
    split; [done|]. split; [apply filter_sublist|]. split; [|done].
    intros todo. rewrite filter_elem, negb_true_iff, bool_decide_eq_false.
    rewrite list_elem_of_fmap.
    split; intros [Hin Hnot]; (split; [done|]).
    + intros (a & Ha & Hid & Hok). apply Hnot. exists a. split; [done|].
      apply filter_elem. split; [done|]. by rewrite Hok.
    + intros (a & Hid & [Ha Hok]%filter_elem). apply Hnot. exists a.
      split; [done|]. split; [done|]. by apply negb_true_iff in Hok.
Qed.

(** X23. No flow touches the filter mode, and only the add flow
    touches the temp todo: loading, update, delete, toggle-all and
    clear-completed leave both as they were, whatever the service
    answers. *)
Theorem flows_leave_filter_and_temp w (title : jsstring) (todoId : Z)
    (data : PartialTodo) :
  todoFilterValue (app (addTodo title w).2) = todoFilterValue (app w)
  ∧ todoFilterValue (app (loadTodos w).2) = todoFilterValue (app w)
  ∧ tempTodo (app (loadTodos w).2) = tempTodo (app w)
  ∧ todoFilterValue (app (updateTodo todoId data w).2)
    = todoFilterValue (app w)
  ∧ tempTodo (app (updateTodo todoId data w).2) = tempTodo (app w)
  ∧ todoFilterValue (app (removeTodo todoId w).2) = todoFilterValue (app w)
  ∧ tempTodo (app (removeTodo todoId w).2) = tempTodo (app w)
  ∧ todoFilterValue (app (toggleAllTodos w).2) = todoFilterValue (app w)
  ∧ tempTodo (app (toggleAllTodos w).2) = tempTodo (app w)
  ∧ todoFilterValue (app (removeCompletedTodos w).2)
    = todoFilterValue (app w)
  ∧ tempTodo (app (removeCompletedTodos w).2) = tempTodo (app w).
Proof.
  split.
  { destruct (decide (trim title = [])) as [Hempty|Hne].
    - by rewrite (addTodo_empty _ _ Hempty).
    - destruct (postTodo (newTodoOf (trim title)) (srv w)) as [r s] eqn:E.
      rewrite (addTodo_sent _ _ _ _ Hne E). by destruct r. }
  assert (todoFilterValue (app (loadTodos w).2) = todoFilterValue (app w)
          ∧ tempTodo (app (loadTodos w).2) = tempTodo (app w)) as [? ?].
  { unfold loadTodos. rewrite bind_run. unfold request.
    destruct (getTodos (srv w)) as [r s]. by destruct r. }
  assert (todoFilterValue (app (updateTodo todoId data w).2)
          = todoFilterValue (app w)
          ∧ tempTodo (app (updateTodo todoId data w).2) = tempTodo (app w))
    as [? ?].
  { destruct (patchTodo todoId data (srv w)) as [r s] eqn:E.
    rewrite (updateTodo_run _ _ _ _ _ E). by destruct r. }
  assert (todoFilterValue (app (removeTodo todoId w).2)
          = todoFilterValue (app w)
          ∧ tempTodo (app (removeTodo todoId w).2) = tempTodo (app w))
    as [? ?].
  { destruct (deleteTodo todoId (srv w)) as [r s] eqn:E.
    rewrite (removeTodo_run _ _ _ _ E). by destruct r. }
  assert (todoFilterValue (app (toggleAllTodos w).2)
          = todoFilterValue (app w)
          ∧ tempTodo (app (toggleAllTodos w).2) = tempTodo (app w))
    as [? ?].
  { destruct (decide (todos (app w) = [])) as [Hempty|Hne].
    - by rewrite (toggleAll_empty _ Hempty).
    - by destruct (toggleAll_run w Hne) as (l' & _ & ->). }
  assert (todoFilterValue (app (removeCompletedTodos w).2)
          = todoFilterValue (app w)
          ∧ tempTodo (app (removeCompletedTodos w).2) = tempTodo (app w))
    as [? ?].
  { destruct (decide (completedTodos (todos (app w)) = [])) as [Hn|Hsome].
    - by rewrite (removeCompleted_none _ Hn).
    - by rewrite (removeCompleted_run _ Hsome). }
  by repeat split.
Qed.

(** *** The two bulk flows, from the collection they start on *)

(** C1. On a collection that is not empty, the target of toggle-all is
    true exactly when some todo is uncompleted. The flow settles, and
    the collection then holds the same identifiers in the same order
    and has the same length: at the position of every todo of the
    collection there is a todo with its identifier, the target as its
    completed field and false as its loading flag, and so it is for
    every todo of the collection afterwards. This holds whatever the
    service answered to the update requests, in whatever order; one
    request was sent for each todo that differed from the target. *)
Theorem toggleAll_reaches_target w :
  todos (app w) ≠ [] →
  (toggleValueOf (todos (app w)) = true
     ↔ ∃ todo, todo ∈ todos (app w) ∧ completed todo = false)
  ∧ (toggleAllTodos w).1 = Fulfilled tt
  ∧ id <$> todos (app (toggleAllTodos w).2) = id <$> todos (app w)
  ∧ length (todos (app (toggleAllTodos w).2)) = length (todos (app w))
  ∧ (∀ i todo,
       todos (app w) !! i = Some todo →
       ∃ todo',
         todos (app (toggleAllTodos w).2) !! i = Some todo'
         ∧ id todo' = id todo
         ∧ completed todo' = toggleValueOf (todos (app w))
         ∧ loading todo' = Some false)
  ∧ Forall (λ todo, completed todo = toggleValueOf (todos (app w))
                    ∧ loading todo = Some false)
      (todos (app (toggleAllTodos w).2))
  ∧ log (toggleAllTodos w).2
    = log w
      ++ ((λ todo,
             PatchTodo (id todo)
               (data_completed (toggleValueOf (todos (app w)))))
            <$> List.filter
                  (λ todo, xorb (completed todo)
                             (toggleValueOf (todos (app w))))
                  (todos (app w))).
Proof.
  intros Hne. split; [apply toggleValueOf_true|].
  destruct (toggleAll_run w Hne) as (l' & Hids & ->).
  cbn [fst snd app todos log]. set (v := toggleValueOf (todos (app w))).
  split; [done|]. split; [by rewrite reconcile_ids|].
  split; [by rewrite length_fmap, <- (length_fmap id), Hids, length_fmap|].
  split; [|split; [|done]].
  - intros i todo Hi.
    assert ((id <$> l') !! i = Some (id todo)) as Hi'
      by (by rewrite Hids, list_lookup_fmap, Hi).
    rewrite list_lookup_fmap in Hi'.
    destruct (l' !! i) as [todo0|] eqn:E; [|done].
    injection Hi' as Hid. exists (reconcile v todo0).
    rewrite list_lookup_fmap, E. split; [done|]. split; [done|].
    split; [apply reconcile_completed | apply reconcile_loading].
  - apply Forall_fmap, Forall_true. intros todo.
    split; [apply reconcile_completed | apply reconcile_loading].
Qed.

Lemma filter_all {A} (f : A → bool) (l : list A) :
  Forall (λ x, f x = true) l → List.filter f l = l.
Proof.
  intros Hall. rewrite <- (filter_none l) at 2. apply filter_ext_elem.
  intros x Hin. by apply (proj1 (Forall_forall _ _) Hall).
Qed.

(** The collection after a clear-completed of which every deletion
    succeeded: the todos with no identifier of a completed todo. *)
Lemma removeCompleted_todos w :
  Forall (λ answer, isRejected answer.2 = false)
    (sendDeletes (completedTodos (todos (app w))) w).1 →
  todos (app (removeCompletedTodos w).2)
  = List.filter
      (λ todo,
         negb (bool_decide
                 (id todo ∈ id <$> completedTodos (todos (app w)))))
      (todos (app w)).
Proof.
  intros Hall.
  destruct (decide (completedTodos (todos (app w)) = [])) as [Hnone|Hsome].
  - rewrite (removeCompleted_none _ Hnone), Hnone. cbn.
    rewrite <- (filter_none (todos (app w))) at 1.
    apply filter_ext_elem. intros todo _.
    rewrite bool_decide_eq_false_2; [done | apply not_elem_of_nil].
  - rewrite (removeCompleted_run _ Hsome). cbn [snd app todos].
    pose proof (sendDeletes_run (completedTodos (todos (app w))) w)
      as (Hids & _ & _).
    rewrite (filter_all (λ a : Z * Settled Err unit, negb (isRejected a.2)));
      [by rewrite Hids|].
    eapply Forall_impl; [exact Hall|]. cbn. by intros a ->.
Qed.

Lemma separated_uncompleted (ts : list Todo) :
  List.filter
    (λ todo, negb (bool_decide (id todo ∈ id <$> completedTodos ts))) ts
  = uncompletedTodos ts
  ↔ (∀ todo other,
       todo ∈ ts → other ∈ ts →
       completed todo = true → completed other = false →
       id todo ≠ id other).
Proof.
  split.
  - intros Heq todo other Hin Hother Hc Hoc Hid.
    assert (other ∈ uncompletedTodos ts) as Hu
      by (apply filter_elem; by rewrite Hoc).
    rewrite <- Heq in Hu. apply filter_elem in Hu as [_ Hu].
    apply negb_true_iff, bool_decide_eq_false in Hu. apply Hu.
    rewrite <- Hid. apply list_elem_of_fmap. exists todo. split; [done|].
    by apply filter_elem.
  - intros Hsep. unfold uncompletedTodos. apply filter_ext_elem.
    intros todo Hin. destruct (completed todo) eqn:Hc; cbn.
    + rewrite bool_decide_eq_true_2; [done|].
      apply list_elem_of_fmap. exists todo. split; [done|].
      by apply filter_elem.
    + rewrite bool_decide_eq_false_2; [done|].
      intros (other & Hid & [Hother Hoc]%filter_elem)%list_elem_of_fmap.
      by apply (Hsep other todo).
Qed.

(** C5. Clear-completed sends one delete request per completed todo, so
    none when no todo is completed, and the flow then changes nothing.
    When every deletion it asks for succeeds, on a collection whose
    identifiers are unique, as the data model has them, the collection
    that remains is the uncompleted todos, as they were and in their
    order: exactly the completed todos are gone. The same holds of any
    collection in which no uncompleted todo shares its identifier with
    a completed one, and of no other. *)
Theorem removeCompletedTodos_all_succeed w :
  log (removeCompletedTodos w).2
  = log w ++ ((λ todo, DeleteTodo (id todo))
                <$> completedTodos (todos (app w)))
  ∧ (completedTodos (todos (app w)) = [] →
       removeCompletedTodos w = (Fulfilled tt, w))
  ∧ (Forall (λ answer, isRejected answer.2 = false)
       (sendDeletes (completedTodos (todos (app w))) w).1 →
     (NoDup (id <$> todos (app w)) →
        todos (app (removeCompletedTodos w).2)
        = uncompletedTodos (todos (app w))
        ∧ (∀ todo, todo ∈ todos (app (removeCompletedTodos w).2)
             ↔ todo ∈ todos (app w) ∧ completed todo = false))
     ∧ (todos (app (removeCompletedTodos w).2)
        = uncompletedTodos (todos (app w))
        ↔ (∀ todo other,
             todo ∈ todos (app w) → other ∈ todos (app w) →
             completed todo = true → completed other = false →
             id todo ≠ id other))).
Proof.
  split; [|split; [apply removeCompleted_none|]].
  - destruct (decide (completedTodos (todos (app w)) = [])) as [Hnone|Hsome].
    + rewrite (removeCompleted_none _ Hnone), Hnone. cbn.
      by rewrite app_nil_r.
    + by rewrite (removeCompleted_run _ Hsome).
  - intros Hall. rewrite (removeCompleted_todos _ Hall). split.
    + intros Hnd. rewrite (unique_ids_uncompleted _ Hnd). split; [done|].
      intros todo. unfold uncompletedTodos. rewrite filter_elem.
      destruct (completed todo); cbn; intuition congruence.
    + apply separated_uncompleted.
Qed.

End BulkFlows.

(** ** More on the error auto-dismiss effect *)

Module ErrorTimerInvariant.
Import ErrorTimer.

Local Open Scope N_scope.

Lemma setError_now (msg : string) (s : State) :
  now (setError msg s) = now s.
Proof.
  destruct s as [e n ts nt c]. unfold setError, task, commit. cbn.
  destruct (bool_decide (msg = e)); [done|].
  unfold rerun, effect. destruct c; cbn; by destruct (String.eqb msg "").
Qed.





Lemma next_idle (e : Event) (s s' : State) :
  isSetError e = false → idle s → next e s = Some s' → idle s'.
Proof.
  intros Hq (He & Hts & Hc) Hnext. destruct e as [msg | dt | t]; [done| |].
  - cbn in Hnext. destruct (forallb _ _); [|done]. by injection Hnext as <-.
  - cbn in Hnext. by rewrite Hts in Hnext.
Qed.

(** X25. Clearing the error, as a successful add or delete does,
    cancels the pending timeout: in every state the cell can reach,
    after [setError('')] no timeout is pending, and as long as no flow
    sets the error again no timeout fires and the error stays empty. *)
Theorem clearing_cancels_timer (s : State) :
  reachable s →
  error (setError "" s) = ""
  ∧ timers (setError "" s) = []
  ∧ now (setError "" s) = now s
  ∧ (∀ events s',
       Forall (λ e, isSetError e = false) events →
       run events (setError "" s) = Some s' →
       error s' = "" ∧ timers s' = []
       ∧ Forall (λ e, ∃ dt, e = Elapse dt) events).
Proof.
  intros Hreach.
  assert (idle (setError "" s)) as Hidle.
  { destruct (AutoDismiss.reachable_inv _ Hreach)
      as [Hidle | (old & timer & due & Harmed)].
    - destruct Hidle as (He & ?). rewrite <- He at 1.
      rewrite AutoDismiss.setError_same. by split.
    - by destruct (AutoDismiss.setError_clears _ _ _ _ Harmed). }
  pose proof Hidle as (He & Hts & _).
  split; [done|]. split; [done|]. split; [apply setError_now|].
  intros events s' Hquiet. revert Hidle. clear He Hts.
  generalize (setError "" s) as s0.
  induction Hquiet as [|e events Hq _ IH]; intros s0 Hidle Hrun.
  - cbn in Hrun. injection Hrun as <-. destruct Hidle as (? & ? & _).
    by repeat split.
  - cbn in Hrun. destruct (next e s0) as [s1|] eqn:Hnext; [|done].
    destruct (IH s1 (next_idle _ _ _ Hq Hidle Hnext) Hrun) as (? & ? & Hall).
    split; [done|]. split; [done|]. constructor; [|done].
    destruct e as [msg | dt | t]; [done | by exists dt |].
    cbn in Hnext. destruct Hidle as (_ & Hts & _). by rewrite Hts in Hnext.
Qed.

End ErrorTimerInvariant.

(** ** The further properties on the two services *)

(** Closes [x ∉ [a; b; ...]] for distinct numerals. *)
Ltac not_in_list :=
  let H := fresh in
  intros H;
  repeat (apply elem_of_cons in H as [H|H]; [discriminate H|]);
  by apply elem_of_nil in H.

Lemma renderedItems_keys_witness :
  NoDup (id <$> shopping) ∧ (0 ∉ id <$> shopping)
  ∧ NoDup (TodoList.key
             <$> renderedItems (api := memoryApi)
                   (mkApp shopping (Some (mkTodo 0 11 (js "jam") false None))
                      "" Completed))
  ∧ length (renderedItems (api := memoryApi)
              (mkApp shopping (Some (mkTodo 0 11 (js "jam") false None))
                 "" Completed)) = 3%nat.
Proof.
  assert (NoDup (id <$> shopping)) as Hnd
    by exact (bool_decide_unpack (NoDup (id <$> shopping)) I).
  assert (0 ∉ id <$> shopping) as H0 by not_in_list.
  split; [exact Hnd|]. split; [exact H0|].
  destruct (renderedItems_keys (api := memoryApi)
              (mkApp shopping (Some (mkTodo 0 11 (js "jam") false None))
                 "" Completed) Hnd H0) as (Hkeys & Hlen & _).
  split; [exact Hkeys|]. apply Hlen. discriminate.
Defined.

Lemma addTodo_success_witness :
  trim (js " jam ") ≠ []
  ∧ todos (app (addTodo (api := memoryApi) (js " jam ")
                  (online "Unable to add a todo")).2)
    = shopping ++ [mkTodo 4 11 (js "jam") false None].
Proof.
  assert (trim (js " jam ") ≠ []) as H by discriminate.
  split; [exact H|].
  edestruct (addTodo_success (api := memoryApi) (js " jam ")
               (online "Unable to add a todo")) as (Hts & _);
    [exact H | reflexivity | exact Hts].
Defined.

Lemma addTodo_ignores_padding_witness :
  addTodo (api := memoryApi) (js "  " ++ js "jam" ++ [9; 160]%N) (online "")
  = addTodo (api := memoryApi) (js "jam") (online "").
Proof.
  apply (addTodo_ignores_padding (api := memoryApi)); by repeat constructor.
Defined.

Lemma updateTodo_keeps_ids_witness :
  id <$> todos (app (updateTodo (api := memoryApi) 2
                       (data_title (js "bread")) (online "")).2) = [1; 2; 3]
  ∧ todos (app (updateTodo (api := memoryApi) 2
                  (data_title (js "bread")) (online "")).2) !! 1%nat
    = Some (mkTodo 2 11 (js "bread") true None).
Proof.
  destruct (updateTodo_keeps_ids (api := memoryApi) 2
              (data_title (js "bread")) (online "")) as [Hids Hsucc].
  split; [exact Hids|].
  edestruct Hsucc as [Hpos _]; [reflexivity|].
  exact (Hpos 1%nat _ eq_refl).
Defined.

Lemma removeTodo_success_witness :
  S (length (todos (app (removeTodo (api := memoryApi) 2 (online "")).2)))
  = 3%nat.
Proof.
  edestruct (removeTodo_success (api := memoryApi) 2 (online ""))
    as (_ & _ & _ & Hnd); [reflexivity|].
  destruct Hnd as [_ Hlen];
    [exact (bool_decide_unpack (NoDup (id <$> shopping)) I)|].
  apply Hlen. right. left.
Defined.

Lemma removeTodo_failure_witness :
  todos (app (removeTodo (api := offlineApi) 2 (offline "")).2) = shopping
  ∧ error (app (removeTodo (api := offlineApi) 2 (offline "")).2)
    = "Unable to delete a todo"
  ∧ (removeTodo (api := offlineApi) 2 (offline "")).1 = Rejected "offline".
Proof.
  destruct (removeTodo_failure (api := offlineApi) 2 (offline "") "offline"
              tt eq_refl) as (Hts & He & Hout & _).
  by repeat split.
Defined.

Lemma add_then_remove_witness :
  todos (app (removeTodo (api := memoryApi) 4
                (addTodo (api := memoryApi) (js " jam ") (online "")).2).2)
  = shopping.
Proof.
  edestruct (add_then_remove (api := memoryApi) (js " jam ") (online ""))
    as (Hts & _);
    [discriminate | reflexivity | not_in_list | reflexivity | exact Hts].
Defined.

Lemma loadTodos_outcomes_witness :
  todos (app (loadTodos (api := memoryApi)
                (mkWorld (mkApp [] None "" All) shopping [])).2) = shopping
  ∧ error (app (loadTodos (api := offlineApi) (offline "")).2)
    = "Unable to load todos".
Proof.
  split.
  - by rewrite (loadTodos_outcomes (api := memoryApi)
                  (mkWorld (mkApp [] None "" All) shopping [])
                  (Fulfilled shopping) shopping eq_refl).
  - by rewrite (loadTodos_outcomes (api := offlineApi) (offline "")
                  (Rejected "offline") tt eq_refl).
Defined.

Lemma editSubmit_unchanged_witness :
  (TodoItem.handleEditTodoFormSubmit (mkTodo 1 11 (js "milk") false None)
     (removeTodo (api := offlineApi)) (updateTodo (api := offlineApi))
     (TodoItem.mkState true true false (js " milk ")) (offline "")).2
  = offline "".
Proof.
  by rewrite (proj1 (editSubmit_unchanged
                       (mkTodo 1 11 (js "milk") false None)
                       (removeTodo (api := offlineApi))
                       (updateTodo (api := offlineApi))
                       (TodoItem.mkState true true false (js " milk "))
                       (offline "")) eq_refl).
Defined.

Lemma editSubmit_empty_deletes_witness :
  log (TodoItem.handleEditTodoFormSubmit (mkTodo 1 11 (js "milk") false None)
         (removeTodo (api := memoryApi)) (updateTodo (api := memoryApi))
         (TodoItem.mkState true true false (js "  ")) (online "")).2
  = [DeleteTodo 1].
Proof.
  edestruct (editSubmit_empty_deletes (api := memoryApi)
               (mkTodo 1 11 (js "milk") false None)
               (TodoItem.mkState true true false (js "  ")) (online ""))
    as (_ & Hlog & _); [reflexivity | discriminate | exact Hlog].
Defined.


Lemma toggleAll_keeps_ids_witness :
  NoDup (id <$> todos (app (toggleAllTodos (api := memoryApi) (online "")).2)).
Proof.
  apply (toggleAll_keeps_ids (api := memoryApi) (online "")).
  exact (bool_decide_unpack (NoDup (id <$> shopping)) I).
Defined.

Lemma toggleAll_flips_witness :
  todos (app (offline "")) ≠ []
  ∧ toggleValueOf
      (todos (app (toggleAllTodos (api := offlineApi) (offline "")).2))
    = false.
Proof.
  assert (todos (app (offline "")) ≠ []) as H by discriminate.
  split; [exact H|].
  exact (proj1 (toggleAll_flips (api := offlineApi) (offline "") H)).
Defined.

Lemma bulk_flows_nothing_to_do_witness :
  toggleAllTodos (api := offlineApi)
    (mkWorld (mkApp [] None "Unable to load todos" All) tt [])
  = (Fulfilled tt, mkWorld (mkApp [] None "Unable to load todos" All) tt [])
  ∧ removeCompletedTodos (api := offlineApi)
      (mkWorld (mkApp [mkTodo 1 11 (js "milk") false None] None "" All) tt [])
    = (Fulfilled tt,
       mkWorld (mkApp [mkTodo 1 11 (js "milk") false None] None "" All) tt []).
Proof.
  split.
  - by apply (bulk_flows_nothing_to_do (api := offlineApi)).
  - apply (bulk_flows_nothing_to_do (api := offlineApi)). by repeat constructor.
Defined.

Lemma removeCompleted_partial_witness :
  error (app (removeCompletedTodos (api := offlineApi) (offline "")).2)
  = "Some todos could not be deleted".
Proof.
  by rewrite (proj2 (proj2 (proj2
       (removeCompleted_partial (api := offlineApi) (offline ""))))).
Defined.


Lemma clearing_cancels_timer_witness :
  ErrorTimer.timers
    (ErrorTimer.setError ""
       {| ErrorTimer.error := "Unable to load todos"; ErrorTimer.now := 1000;
          ErrorTimer.timers := [(0%nat, 3000%N)]; ErrorTimer.nextTimer := 1;
          ErrorTimer.cleanup := Some 0%nat |}) = [].
Proof.
  refine (proj1 (proj2 (ErrorTimerInvariant.clearing_cancels_timer _ _))).
  exists [ErrorTimer.SetErrors ["Unable to load todos"];
          ErrorTimer.Elapse 1000].
  reflexivity.
Defined.

Lemma toggleAll_reaches_target_witness :
  todos (app (offline "")) ≠ []
  ∧ (toggleAllTodos (api := offlineApi) (offline "")).1 = Fulfilled tt
  ∧ id <$> todos (app (toggleAllTodos (api := offlineApi) (offline "")).2)
    = [1; 2; 3]
  ∧ Forall (λ todo, completed todo = true ∧ loading todo = Some false)
      (todos (app (toggleAllTodos (api := offlineApi) (offline "")).2))
  ∧ log (toggleAllTodos (api := offlineApi) (offline "")).2
    = [PatchTodo 1 (data_completed true)].
Proof.
  assert (todos (app (offline "")) ≠ []) as H by discriminate.
  destruct (toggleAll_reaches_target (api := offlineApi) (offline "") H)
    as (_ & Hout & Hids & _ & _ & Hall & Hlog).
  split; [exact H|]. split; [exact Hout|]. split; [exact Hids|].
  split; [exact Hall | exact Hlog].
Defined.

Lemma removeCompletedTodos_all_succeed_witness :
  NoDup (id <$> shopping)
  ∧ todos (app (removeCompletedTodos (api := memoryApi) (online "")).2)
    = [mkTodo 1 11 (js "milk") false None]
  ∧ log (removeCompletedTodos (api := memoryApi) (online "")).2
    = [DeleteTodo 2; DeleteTodo 3].
Proof.
  assert (NoDup (id <$> shopping)) as Hnd
    by exact (bool_decide_unpack (NoDup (id <$> shopping)) I).
  assert (Forall (λ answer : Z * Settled string unit,
                    isRejected answer.2 = false)
            (sendDeletes (api := memoryApi)
               (completedTodos (todos (app (online "")))) (online "")).1)
    as Hall by (repeat constructor).
  destruct (removeCompletedTodos_all_succeed (api := memoryApi) (online ""))
    as (Hlog & _ & Hsucc).
  destruct (Hsucc Hall) as [Hunique _]. destruct (Hunique Hnd) as [Hts _].
  split; [exact Hnd|]. split; [exact Hts | exact Hlog].
Defined.
